(** * RCC beam design engine: load distribution, analysis and design

    A shallow embedding of [utils/rccCalculations.ts] and of the data
    contracts of [types.ts].

    Numbers.  A TypeScript [number] is modelled as a real number: the
    arithmetic of the engine is read as exact arithmetic, so rounding
    error, infinities and NaN are outside the model.  Division is the
    total division of [R], where the host language yields an infinity or
    NaN on a zero divisor: a statement about a quotient is to be read for
    a divisor that is not zero. *)

From Stdlib Require Import String.
From Stdlib Require Import Reals Lra Lia ZArith List Bool.
Import ListNotations.

Local Open Scope R_scope.

(** ** The numeric primitives of the host language *)

Module Num.

(** Comparisons, as booleans. *)
Definition ltb (x y : R) : bool := if Rlt_dec x y then true else false.
Definition gtb (x y : R) : bool := ltb y x.
Definition leb (x y : R) : bool := if Rle_dec x y then true else false.
Definition geb (x y : R) : bool := leb y x.
Definition eqb (x y : R) : bool := if Req_dec_T x y then true else false.

(** [Math.floor] and [Math.ceil], with integer results. *)
Definition floor (x : R) : Z := Int_part x.
Definition ceil (x : R) : Z := (- Int_part (- x))%Z.

(** [Math.log10]. *)
Definition log10 (x : R) : R := ln x / ln 10.

(** [parseFloat(x.toFixed(2))].  [toFixed] treats the sign apart, prints
    numbers from 10^21 on in exponent notation (which [parseFloat] reads
    back unchanged) and otherwise picks the integer [n] with [n / 100]
    nearest to [x], the larger one on a tie. *)
Definition nearest_hundredth (x : R) : R := IZR (floor (x * 100 + 0.5)) / 100.

Definition toFixed2 (x : R) : R :=
  if ltb x 0 then - (if leb (10 ^ 21) (- x) then - x else nearest_hundredth (- x))
  else if leb (10 ^ 21) x then x else nearest_hundredth x.

End Num.

(** ** Data contracts ([types.ts]) *)

Inductive SteelGrade : Set := Fe415 | Fe500 | Fe550.

Definition SteelGrade_value (g : SteelGrade) : R :=
  match g with Fe415 => 415 | Fe500 => 500 | Fe550 => 550 end.

Inductive ConcreteGrade : Set := M20 | M25 | M30 | M35.

Definition ConcreteGrade_value (g : ConcreteGrade) : R :=
  match g with M20 => 20 | M25 => 25 | M30 => 30 | M35 => 35 end.

Inductive SlabType : Set := OneWay | TwoWay.

(** For [TwoWay]: [Short] edge gives a triangular load, [Long] edge a
    trapezoidal one. *)
Inductive BeamSupportEdge : Set := Short | Long.

Record SlabSideConfig : Type := {
  enabled : bool;
  type : SlabType;
  lx : R;
  ly : R;
  supportEdge : BeamSupportEdge
}.

(** A point load as the application shell builds it ([addPointLoad]). *)
Record PointLoad : Type := {
  id : string;
  value : R;
  distance : R
}.

(** [DesignInputs].  The fields are those of the interface in [types.ts];
    [pointLoads] and [masonryDensity] are the two further properties that
    the application shell puts in the object it passes to the engine.  The
    engine's functions below read neither of them. *)
Record DesignInputs : Type := {
  slabThickness : R;
  liveLoad : R;
  floorFinish : R;
  leftSlab : SlabSideConfig;
  rightSlab : SlabSideConfig;
  pointLoads : list PointLoad;
  beamWidth : R;
  beamDepth : R;
  beamClearSpan : R;
  effectiveCover : R;
  wallHeight : R;
  wallThickness : R;
  masonryDensity : R;
  fck : ConcreteGrade;
  fy : SteelGrade;
  mainBarDia : R;
  stirrupBarDia : R
}.

Record LoadResult : Type := {
  slabSelfWeight : R;
  totalSlabLoadArea : R;
  udlFromLeftSlab : R;
  udlFromRightSlab : R;
  udlTotalSlab : R;
  beamSelfWeight : R;
  wallLoad : R;
  totalDesignUDL : R
}.

Record AnalysisResult : Type := {
  maxMoment : R;
  maxShear : R;
  effectiveDepth : R
}.

(** What [checkDeflection] returns; [designBeam] spreads it into its
    result. *)
Record DeflectionResult : Type := {
  dr_actualLbyD : R;
  dr_basicLbyD : R;
  dr_modificationFactorKt : R;
  dr_allowableLbyD : R;
  dr_deflectionCheckPassed : bool
}.

Record DesignResult : Type := {
  muLim : R;
  isDoublyReinforced : bool;
  astRequired : R;
  ptProvided : R;
  numberOfBars : Z;
  astProvided : R;
  tauV : R;
  tauC : R;
  shearReinforcementRequired : bool;
  stirrupSpacing : Z;
  actualLbyD : R;
  basicLbyD : R;
  modificationFactorKt : R;
  allowableLbyD : R;
  deflectionCheckPassed : bool
}.

(** ** The engine ([utils/rccCalculations.ts]) *)

Definition CONCRETE_DENSITY : R := 25.
Definition MASONRY_DENSITY : R := 20.
Definition PARTIAL_SAFETY_FACTOR_LOAD : R := 1.5.

(** *** [getTauC]: interpolation in the table for M20 *)

Definition points : list R :=
  [0.15; 0.25; 0.5; 0.75; 1; 1.25; 1.5; 2].

Definition m20vals : list R :=
  [0.28; 0.36; 0.48; 0.56; 0.62; 0.67; 0.72; 0.79].

(** The search loop
    [while (idx < points.length - 1 && ptLimited > points[idx+1]) idx++],
    run for at most [fuel] iterations. *)
Fixpoint find_idx (fuel : nat) (ptLimited : R) (idx : nat) : nat :=
  match fuel with
  | O => idx
  | S fuel' =>
      if (idx <? length points - 1)%nat && Num.gtb ptLimited (nth (idx + 1) points 0)
      then find_idx fuel' ptLimited (S idx)
      else idx
  end.

(** The M20 value that [getTauC] interpolates, before the grade factor. *)
Definition tauM20_at (ptLimited : R) : R :=
  let idx := find_idx (length points) ptLimited 0 in
  let t1 := nth idx m20vals 0 in
  let t2 := nth (Nat.min (idx + 1) (length points - 1)) m20vals 0 in
  let p1 := nth idx points 0 in
  let p2 := nth (Nat.min (idx + 1) (length points - 1)) points 0 in
  if Num.eqb p2 p1 then t1
  else t1 + (t2 - t1) * (ptLimited - p1) / (p2 - p1).

Definition gradeFactor (fck : R) : R := 1 + (fck - 20) * 0.01.

(** [getTauC].  The source also sets a [baseVal] from [fck], which it
    never reads; it has no part in the result and is left out. *)
Definition getTauC (pt fck : R) : R :=
  let ptLimited := Rmin (Rmax pt 0.15) 3 in
  let tauM20 := tauM20_at ptLimited in
  Num.toFixed2 (tauM20 * gradeFactor fck).

(** *** Load aggregation *)

Definition calculateSlabLoadPerMeter (config : SlabSideConfig) (totalAreaLoad : R) : R :=
  if negb (enabled config) then 0
  else
    let lx := lx config in
    let ly := ly config in
    match type config with
    | OneWay => (totalAreaLoad * lx) / 2
    | TwoWay =>
        match supportEdge config with
        | Short => (totalAreaLoad * lx) / 3
        | Long =>
            let beta := ly / lx in
            let factor := 1 - (1 / (3 * beta ^ 2)) in
            (totalAreaLoad * lx) / 2 * factor
        end
    end.

Definition calculateLoads (inputs : DesignInputs) : LoadResult :=
  let dSlabM := slabThickness inputs / 1000 in
  let slabSelfWeight := dSlabM * CONCRETE_DENSITY in
  let totalSlabLoadArea := slabSelfWeight + liveLoad inputs + floorFinish inputs in
  let udlFromLeftSlab := calculateSlabLoadPerMeter (leftSlab inputs) totalSlabLoadArea in
  let udlFromRightSlab := calculateSlabLoadPerMeter (rightSlab inputs) totalSlabLoadArea in
  let udlTotalSlab := udlFromLeftSlab + udlFromRightSlab in
  let bM := beamWidth inputs / 1000 in
  let dM := beamDepth inputs / 1000 in
  let beamSelfWeight := bM * dM * CONCRETE_DENSITY in
  let wallThickM := wallThickness inputs / 1000 in
  let wallLoad := wallThickM * wallHeight inputs * MASONRY_DENSITY in
  let totalServiceLoad := udlTotalSlab + beamSelfWeight + wallLoad in
  let totalDesignUDL := totalServiceLoad * PARTIAL_SAFETY_FACTOR_LOAD in
  {| slabSelfWeight := slabSelfWeight;
     totalSlabLoadArea := totalSlabLoadArea;
     udlFromLeftSlab := udlFromLeftSlab;
     udlFromRightSlab := udlFromRightSlab;
     udlTotalSlab := udlTotalSlab;
     beamSelfWeight := beamSelfWeight;
     wallLoad := wallLoad;
     totalDesignUDL := totalDesignUDL |}.

(** *** Section analysis *)

Definition analyzeBeam (inputs : DesignInputs) (loads : LoadResult) : AnalysisResult :=
  let L := beamClearSpan inputs in
  let w := totalDesignUDL loads in
  let maxMoment := (w * L * L) / 8 in
  let maxShear := (w * L) / 2 in
  let effectiveDepth := beamDepth inputs - effectiveCover inputs in
  {| maxMoment := maxMoment; maxShear := maxShear; effectiveDepth := effectiveDepth |}.

(** *** Deflection check (IS 456 Cl 23.2.1) *)

Definition checkDeflection (spanM effDepthMm astRequired astProvided b fy : R)
  : DeflectionResult :=
  let basicLbyD := 20 in
  let pt := (astProvided / (b * effDepthMm)) * 100 in
  let fs := 0.58 * fy * (astRequired / astProvided) in
  let safePt := Rmax pt 0.1 in
  let denominator := 0.225 + (0.0032 * fs) - (0.625 * Num.log10 safePt) in
  let kt := if Num.gtb denominator 0 then 1 / denominator else 1 in
  let kt := Rmin (Rmax kt 0.7) 2 in
  let allowableLbyD := basicLbyD * kt in
  let actualLbyD := (spanM * 1000) / effDepthMm in
  {| dr_actualLbyD := actualLbyD;
     dr_basicLbyD := basicLbyD;
     dr_modificationFactorKt := kt;
     dr_allowableLbyD := allowableLbyD;
     dr_deflectionCheckPassed := Num.leb actualLbyD allowableLbyD |}.

(** *** Flexure and shear design *)

Definition SteelGrade_eqb (a b : SteelGrade) : bool :=
  match a, b with
  | Fe415, Fe415 | Fe500, Fe500 | Fe550, Fe550 => true
  | _, _ => false
  end.

(** The limiting-moment coefficient chosen at the head of [designBeam]. *)
Definition k_lim_of (fy : SteelGrade) : R :=
  let k_lim := 0.138 in
  let k_lim := if SteelGrade_eqb fy Fe500 then 0.133 else k_lim in
  let k_lim := if SteelGrade_eqb fy Fe550 then 0.129 else k_lim in
  k_lim.

(** The maximum permissible shear stress, as [designBeam] selects it. *)
Definition tcMax_of (fck : R) : R :=
  if Num.eqb fck 40 then 4
  else if Num.geb fck 30 then 3.5
  else if Num.geb fck 25 then 3.1
  else 2.8.

Definition designBeam (inputs : DesignInputs) (analysis : AnalysisResult) : DesignResult :=
  let steel := fy inputs in
  let fck := ConcreteGrade_value (fck inputs) in
  let fy := SteelGrade_value steel in
  let b := beamWidth inputs in
  let stirrupBarDia := stirrupBarDia inputs in
  let Mu := maxMoment analysis in
  let Vu := maxShear analysis in
  let d := effectiveDepth analysis in
  (* 1. limiting moment *)
  let k_lim := k_lim_of steel in
  let MuLim := k_lim * fck * b * d * d / 1000000 in
  let isDoublyReinforced := Num.gtb Mu MuLim in
  (* 2. tension steel *)
  let astRequired :=
    if isDoublyReinforced then
      let factor := 1 - sqrt (1 - (4.6 * (MuLim * 1000000)) / (fck * b * d * d)) in
      (0.5 * fck / fy) * factor * b * d
    else
      let factor := 1 - sqrt (Rmax 0 (1 - (4.6 * (Mu * 1000000)) / (fck * b * d * d))) in
      (0.5 * fck / fy) * factor * b * d in
  let astMin := (0.85 * b * d) / fy in
  let astRequired := Rmax astRequired astMin in
  let areaOneBar := (PI / 4) * mainBarDia inputs ^ 2 in
  let numberOfBars := Num.ceil (astRequired / areaOneBar) in
  let astProvided := IZR numberOfBars * areaOneBar in
  (* 3. shear *)
  let tv := (Vu * 1000) / (b * d) in
  let ptProvided := (astProvided / (b * d)) * 100 in
  let tc := getTauC ptProvided fck in
  let tcMax := tcMax_of fck in
  let '(shearReinforcementRequired, stirrupSpacing) :=
    if Num.gtb tv tcMax then (false, 0)
    else if Num.ltb tv tc then
      let asv := 2 * (PI / 4) * stirrupBarDia ^ 2 in
      let stirrupSpacing := (asv * 0.87 * fy) / (0.4 * b) in
      (false, Rmin (Rmin stirrupSpacing (0.75 * d)) 300)
    else
      let Vus := (Vu * 1000) - (tc * b * d) in
      let asv := 2 * (PI / 4) * stirrupBarDia ^ 2 in
      let stirrupSpacing := (0.87 * fy * asv * d) / Vus in
      (true, Rmin (Rmin stirrupSpacing (0.75 * d)) 300) in
  (* 4. deflection *)
  let deflection := checkDeflection (beamClearSpan inputs) d astRequired astProvided b fy in
  {| muLim := MuLim;
     isDoublyReinforced := isDoublyReinforced;
     astRequired := astRequired;
     ptProvided := ptProvided;
     numberOfBars := numberOfBars;
     astProvided := astProvided;
     tauV := Num.toFixed2 tv;
     tauC := tc;
     shearReinforcementRequired := shearReinforcementRequired;
     stirrupSpacing := Num.floor stirrupSpacing;
     actualLbyD := dr_actualLbyD deflection;
     basicLbyD := dr_basicLbyD deflection;
     modificationFactorKt := dr_modificationFactorKt deflection;
     allowableLbyD := dr_allowableLbyD deflection;
     deflectionCheckPassed := dr_deflectionCheckPassed deflection |}.

(** ** Replacing the two properties that the engine does not read *)

Definition with_pointLoads (pls : list PointLoad) (i : DesignInputs) : DesignInputs :=
  {| slabThickness := slabThickness i; liveLoad := liveLoad i;
     floorFinish := floorFinish i; leftSlab := leftSlab i; rightSlab := rightSlab i;
     pointLoads := pls;
     beamWidth := beamWidth i; beamDepth := beamDepth i;
     beamClearSpan := beamClearSpan i; effectiveCover := effectiveCover i;
     wallHeight := wallHeight i; wallThickness := wallThickness i;
     masonryDensity := masonryDensity i;
     fck := fck i; fy := fy i; mainBarDia := mainBarDia i;
     stirrupBarDia := stirrupBarDia i |}.

Definition with_masonryDensity (rho : R) (i : DesignInputs) : DesignInputs :=
  {| slabThickness := slabThickness i; liveLoad := liveLoad i;
     floorFinish := floorFinish i; leftSlab := leftSlab i; rightSlab := rightSlab i;
     pointLoads := pointLoads i;
     beamWidth := beamWidth i; beamDepth := beamDepth i;
     beamClearSpan := beamClearSpan i; effectiveCover := effectiveCover i;
     wallHeight := wallHeight i; wallThickness := wallThickness i;
     masonryDensity := rho;
     fck := fck i; fy := fy i; mainBarDia := mainBarDia i;
     stirrupBarDia := stirrupBarDia i |}.

(** ** What the specification says about point loads

    These two definitions follow the words of the specification, not the
    engine; they are what the engine is compared with. *)

(** Each force times 1.5, distances unchanged. *)
Definition spec_factoredPointLoads (pls : list PointLoad) : list PointLoad :=
  map (fun p => {| id := id p; value := 1.5 * value p; distance := distance p |}) pls.

(** UDL peak plus, for each point load, its larger end reaction. *)
Definition spec_peakShear (w L : R) (pls : list PointLoad) : R :=
  w * L / 2
  + fold_right Rplus 0
      (map (fun p => value p * Rmax (distance p) (L - distance p) / L) pls).

(** ** Sample inputs *)

(** The initial state of the application shell. *)
Definition initialInputs : DesignInputs :=
  {| slabThickness := 125; liveLoad := 3; floorFinish := 1;
     leftSlab := {| enabled := true; type := TwoWay; lx := 3; ly := 4.5;
                    supportEdge := Short |};
     rightSlab := {| enabled := false; type := TwoWay; lx := 3; ly := 4.5;
                     supportEdge := Long |};
     pointLoads := [];
     beamWidth := 230; beamDepth := 450; beamClearSpan := 3; effectiveCover := 25;
     wallHeight := 3; wallThickness := 230; masonryDensity := 20;
     fck := M20; fy := Fe500; mainBarDia := 16; stirrupBarDia := 8 |}.

Definition oneWaySide : SlabSideConfig :=
  {| enabled := true; type := OneWay; lx := 3; ly := 4.5; supportEdge := Short |}.

Definition longEdgeSide : SlabSideConfig :=
  {| enabled := true; type := TwoWay; lx := 3; ly := 4.5; supportEdge := Long |}.

(** A slender beam on a longer span: 100 x 200 mm over 6 m. *)
Definition slenderInputs : DesignInputs :=
  {| slabThickness := 125; liveLoad := 3; floorFinish := 1;
     leftSlab := {| enabled := true; type := TwoWay; lx := 3; ly := 4.5;
                    supportEdge := Short |};
     rightSlab := {| enabled := false; type := TwoWay; lx := 3; ly := 4.5;
                     supportEdge := Long |};
     pointLoads := [];
     beamWidth := 100; beamDepth := 200; beamClearSpan := 6; effectiveCover := 25;
     wallHeight := 3; wallThickness := 230; masonryDensity := 20;
     fck := M20; fy := Fe500; mainBarDia := 16; stirrupBarDia := 8 |}.

(** The same with one point load, as [addPointLoad] creates it: 10 kN at
    midspan. *)
Definition inputsWithPointLoad : DesignInputs :=
  with_pointLoads [ {| id := "p1"; value := 10; distance := 3 / 2 |} ] initialInputs.

(** The same with lightweight blocks of density 10. *)
Definition inputsLightBlocks : DesignInputs := with_masonryDensity 10 initialInputs.

(** ** The table of [getTauC], read as the specification reads it *)

(** The breakpoints with their M20 capacities. *)
Definition tauTable : list (R * R) := combine points m20vals.

(** Linear interpolation through a table of breakpoints: on the first
    segment whose right end is not below [x]; past the last breakpoint the
    last value. *)
Fixpoint interpolate (tbl : list (R * R)) (x : R) : R :=
  match tbl with
  | [] => 0
  | (p1, t1) :: rest =>
      match rest with
      | [] => t1
      | (p2, t2) :: _ =>
          if Num.leb x p2 then t1 + (t2 - t1) * (x - p1) / (p2 - p1)
          else interpolate rest x
      end
  end.

(** The clamp of the percentage of steel to the range of the table. *)
Definition clampPt (pt : R) : R := Rmin (Rmax pt 0.15) 3.

(** ** The modification factor of [checkDeflection], in isolation

    The factor that [checkDeflection] derives from its denominator: the
    reciprocal when the denominator is positive, 1 otherwise, clamped to
    the range of the chart. *)
Definition ktOfDenominator (denominator : R) : R :=
  Rmin (Rmax (if Num.gtb denominator 0 then 1 / denominator else 1) 0.7) 2.

(** The denominator that [checkDeflection] computes. *)
Definition ktDenominator (effDepthMm astRequired astProvided b fy : R) : R :=
  let pt := Rmax (100 * astProvided / (b * effDepthMm)) 0.1 in
  let fs := 0.58 * fy * (astRequired / astProvided) in
  0.225 + 0.0032 * fs - 0.625 * Num.log10 pt.

(** ** The maximum shear stress, read as the specification reads it

    A step function of the concrete strength: 2.8 below 25, 3.1 from 25
    and below 30, 3.5 from 30 and below 40, 4.0 from 40 on. *)
Definition spec_tcMax (fck : R) : R :=
  if Num.ltb fck 25 then 2.8
  else if Num.ltb fck 30 then 3.1
  else if Num.ltb fck 40 then 3.5
  else 4.

(** ** Inputs with the two slab sides exchanged *)

Definition swapSlabs (i : DesignInputs) : DesignInputs :=
  {| slabThickness := slabThickness i; liveLoad := liveLoad i;
     floorFinish := floorFinish i; leftSlab := rightSlab i; rightSlab := leftSlab i;
     pointLoads := pointLoads i;
     beamWidth := beamWidth i; beamDepth := beamDepth i;
     beamClearSpan := beamClearSpan i; effectiveCover := effectiveCover i;
     wallHeight := wallHeight i; wallThickness := wallThickness i;
     masonryDensity := masonryDensity i;
     fck := fck i; fy := fy i; mainBarDia := mainBarDia i;
     stirrupBarDia := stirrupBarDia i |}.

(** Inputs with another live load. *)
Definition with_liveLoad (q : R) (i : DesignInputs) : DesignInputs :=
  {| slabThickness := slabThickness i; liveLoad := q;
     floorFinish := floorFinish i; leftSlab := leftSlab i; rightSlab := rightSlab i;
     pointLoads := pointLoads i;
     beamWidth := beamWidth i; beamDepth := beamDepth i;
     beamClearSpan := beamClearSpan i; effectiveCover := effectiveCover i;
     wallHeight := wallHeight i; wallThickness := wallThickness i;
     masonryDensity := masonryDensity i;
     fck := fck i; fy := fy i; mainBarDia := mainBarDia i;
     stirrupBarDia := stirrupBarDia i |}.

(** The initial beam with no slab on either side. *)
Definition bareBeamInputs : DesignInputs :=
  {| slabThickness := 125; liveLoad := 3; floorFinish := 1;
     leftSlab := {| enabled := false; type := TwoWay; lx := 3; ly := 4.5;
                    supportEdge := Short |};
     rightSlab := {| enabled := false; type := TwoWay; lx := 3; ly := 4.5;
                     supportEdge := Long |};
     pointLoads := [];
     beamWidth := 230; beamDepth := 450; beamClearSpan := 3; effectiveCover := 25;
     wallHeight := 3; wallThickness := 230; masonryDensity := 20;
     fck := M20; fy := Fe500; mainBarDia := 16; stirrupBarDia := 8 |}.

(** A slab side whose spans make sense: a short span that is not negative
    and, where the trapezoidal factor divides by it, positive and not
    above the long span. *)
Definition sideInRange (c : SlabSideConfig) : Prop :=
  0 <= lx c
  /\ (type c = TwoWay -> supportEdge c = Long -> 0 < lx c /\ lx c <= ly c).

(** ** The diagrams ([components/Diagrams.tsx])

    A label that the source prints with [toFixed] is kept as the number
    that its decimal string denotes. *)

(** [x.toFixed(1)], read back as a number: as [Num.toFixed2], to tenths. *)
Definition toFixed1 (x : R) : R :=
  let nearest := fun y : R => IZR (Num.floor (y * 10 + 0.5)) / 10 in
  if Num.ltb x 0 then - (if Num.leb (10 ^ 21) (- x) then - x else nearest (- x))
  else if Num.leb (10 ^ 21) x then x else nearest x.

Record MomentPoint : Type := { mp_x : R; mp_moment : R }.

Record ShearPoint : Type := { sp_x : R; sp_shear : R }.

(** The samples of [MomentDiagram]: the loop
    [for (let i = 0; i <= segments; i++)] with [segments = 20], pushing one
    point per turn. *)
Definition momentDiagramData (span maxMoment : R) : list MomentPoint :=
  let segments := 20%nat in
  map (fun i : nat =>
         let x := (span * INR i) / INR segments in
         let m := 4 * maxMoment * (x / span) * (1 - x / span) in
         {| mp_x := Num.toFixed2 x; mp_moment := m |})
      (seq 0 (segments + 1)).

(** The three points of [ShearDiagram]. *)
Definition shearDiagramData (span maxShear : R) : list ShearPoint :=
  [ {| sp_x := 0; sp_shear := maxShear |};
    {| sp_x := Num.toFixed2 (span / 2); sp_shear := 0 |};
    {| sp_x := toFixed1 span; sp_shear := - maxShear |} ].

(** [getX] of [BeamLoadDiagram]: the abscissa at which a load at
    [dist] from the left support is drawn. *)
Definition getX (span dist : R) : R :=
  let width := 400 in
  let paddingX := 20 in
  let drawWidth := width - 2 * paddingX in
  paddingX + (dist / span) * drawWidth.

(** ** The sketch of the cross-section ([components/CrossSection.tsx]) *)

Record Circle : Type := { c_cx : R; c_cy : R; c_r : R }.

Section CrossSection.

Variables (width depth : R) (numBars : Z) (barDia stirrupDia cover : R).

Definition cs_scale : R := 250 / Rmax width depth.
Definition cs_scaledW : R := width * cs_scale.
Definition cs_scaledH : R := depth * cs_scale.
Definition cs_x : R := 150 - cs_scaledW / 2.
Definition cs_y : R := 150 - cs_scaledH / 2.

(** The loop [for (let i = 0; i < numBars; i++)] of [renderBars], which
    leaves at [i > 4]; [fuel] is the number of turns still allowed by
    [i < numBars]. *)
Fixpoint barsLoop (sidePadding spacing bottomY barRadius : R)
    (fuel i : nat) : list Circle :=
  match fuel with
  | O => []
  | S fuel' =>
      if (4 <? i)%nat then []
      else {| c_cx := cs_x + sidePadding + (INR i * spacing);
              c_cy := bottomY;
              c_r := Rmax barRadius 2 |}
           :: barsLoop sidePadding spacing bottomY barRadius fuel' (S i)
  end.

(** [renderBars]: [None] for the [null] it returns when there is no
    bar to draw. *)
Definition renderBars : option (list Circle) :=
  let sidePadding := (cover + stirrupDia) * cs_scale in
  let availableWidth := cs_scaledW - 2 * sidePadding in
  if (numBars <=? 0)%Z then None
  else
    let spacing :=
      if (1 <? numBars)%Z then availableWidth / (IZR numBars - 1) else 0 in
    let barRadius := (barDia * cs_scale) / 2 in
    let bottomY := cs_y + cs_scaledH - sidePadding - barRadius in
    Some (barsLoop sidePadding spacing bottomY barRadius (Z.to_nat numBars) 0).

End CrossSection.

(** ** The point loads of the application shell ([App.tsx])

    The functions that the handlers pass to [setInputs].  A fresh
    identifier is drawn at random in the source and is an argument here;
    [addPointLoad] reads the span from the inputs it updates. *)

(** The field that [updatePointLoad] sets: of the keys of a point load,
    the two that the form passes. *)
Inductive PointLoadField : Set := Field_value | Field_distance.

Definition addPointLoad (newId : string) (prev : DesignInputs) : DesignInputs :=
  let newLoad :=
    {| id := newId; value := 10; distance := beamClearSpan prev / 2 |} in
  with_pointLoads (pointLoads prev ++ [newLoad]) prev.

Definition updatePointLoad (i : string) (field : PointLoadField) (v : R)
    (prev : DesignInputs) : DesignInputs :=
  with_pointLoads
    (map (fun pl =>
            if String.eqb (id pl) i
            then match field with
                 | Field_value =>
                     {| id := id pl; value := v; distance := distance pl |}
                 | Field_distance =>
                     {| id := id pl; value := value pl; distance := v |}
                 end
            else pl)
         (pointLoads prev))
    prev.

Definition removePointLoad (i : string) (prev : DesignInputs) : DesignInputs :=
  with_pointLoads
    (filter (fun pl => negb (String.eqb (id pl) i)) (pointLoads prev))
    prev.

(** ** Facts about the numeric primitives *)

Lemma ltb_true (x y : R) : Num.ltb x y = true <-> x < y.
Proof. unfold Num.ltb. destruct (Rlt_dec x y); split; intros; try easy. Qed.

Lemma ltb_false (x y : R) : Num.ltb x y = false <-> y <= x.
Proof.
  unfold Num.ltb. destruct (Rlt_dec x y); split; intros; try easy; lra.
Qed.

Lemma gtb_true (x y : R) : Num.gtb x y = true <-> y < x.
Proof. apply ltb_true. Qed.

Lemma gtb_false (x y : R) : Num.gtb x y = false <-> x <= y.
Proof. apply ltb_false. Qed.

Lemma leb_true (x y : R) : Num.leb x y = true <-> x <= y.
Proof. unfold Num.leb. destruct (Rle_dec x y); split; intros; try easy. Qed.

Lemma leb_false (x y : R) : Num.leb x y = false <-> y < x.
Proof.
  unfold Num.leb. destruct (Rle_dec x y); split; intros; try easy; lra.
Qed.

Lemma geb_true (x y : R) : Num.geb x y = true <-> y <= x.
Proof. apply leb_true. Qed.

Lemma geb_false (x y : R) : Num.geb x y = false <-> x < y.
Proof. apply leb_false. Qed.

Lemma eqb_true (x y : R) : Num.eqb x y = true <-> x = y.
Proof. unfold Num.eqb. destruct (Req_dec_T x y); split; intros; try easy. Qed.

Lemma eqb_false (x y : R) : Num.eqb x y = false <-> x <> y.
Proof. unfold Num.eqb. destruct (Req_dec_T x y); split; intros; try easy. Qed.

(** Deciding a comparison between two numerals. *)
Ltac decide_cmp :=
  repeat match goal with
  | |- context [Num.gtb ?x ?y] =>
      first [ replace (Num.gtb x y) with true by (symmetry; apply gtb_true; lra)
            | replace (Num.gtb x y) with false by (symmetry; apply gtb_false; lra) ]
  | |- context [Num.ltb ?x ?y] =>
      first [ replace (Num.ltb x y) with true by (symmetry; apply ltb_true; lra)
            | replace (Num.ltb x y) with false by (symmetry; apply ltb_false; lra) ]
  | |- context [Num.geb ?x ?y] =>
      first [ replace (Num.geb x y) with true by (symmetry; apply geb_true; lra)
            | replace (Num.geb x y) with false by (symmetry; apply geb_false; lra) ]
  | |- context [Num.leb ?x ?y] =>
      first [ replace (Num.leb x y) with true by (symmetry; apply leb_true; lra)
            | replace (Num.leb x y) with false by (symmetry; apply leb_false; lra) ]
  | |- context [Num.eqb ?x ?y] =>
      first [ replace (Num.eqb x y) with true by (symmetry; apply eqb_true; lra)
            | replace (Num.eqb x y) with false by (symmetry; apply eqb_false; lra) ]
  end.

(** ** Load aggregation *)

(** C1. The total design UDL is 1.5 times the sum of the unfactored
    per-length contributions: the UDL from the left slab, the UDL from the
    right slab, the self-weight of the beam and the wall load, each as the
    engine reports it and as it follows from the inputs. *)
Theorem totalDesignUDL_is_factored_sum (inputs : DesignInputs) :
  let r := calculateLoads inputs in
  let w := slabThickness inputs / 1000 * 25 + liveLoad inputs + floorFinish inputs in
  totalDesignUDL r
    = 1.5 * (udlFromLeftSlab r + udlFromRightSlab r + beamSelfWeight r + wallLoad r)
  /\ udlFromLeftSlab r = calculateSlabLoadPerMeter (leftSlab inputs) w
  /\ udlFromRightSlab r = calculateSlabLoadPerMeter (rightSlab inputs) w
  /\ beamSelfWeight r = beamWidth inputs / 1000 * (beamDepth inputs / 1000) * 25.
Proof.
  cbv zeta. unfold calculateLoads, CONCRETE_DENSITY, PARTIAL_SAFETY_FACTOR_LOAD.
  cbn [totalDesignUDL udlFromLeftSlab udlFromRightSlab beamSelfWeight wallLoad].
  repeat split; try reflexivity. ring.
Qed.

(** C2. The transfer of a slab side to the beam, per unit length: half
    the span for a one-way slab, a third for a two-way slab borne on its
    short edge, the trapezoidal factor for one borne on its long edge, and
    nothing for a disabled side. *)
Theorem slab_transfer_rule (config : SlabSideConfig) (w : R) :
  (enabled config = true -> type config = OneWay ->
     calculateSlabLoadPerMeter config w = w * lx config / 2)
  /\ (enabled config = true -> type config = TwoWay -> supportEdge config = Short ->
     calculateSlabLoadPerMeter config w = w * lx config / 3)
  /\ (enabled config = true -> type config = TwoWay -> supportEdge config = Long ->
     let beta := ly config / lx config in
     calculateSlabLoadPerMeter config w
       = (w * lx config / 2) * (1 - 1 / (3 * beta ^ 2)))
  /\ (enabled config = false -> calculateSlabLoadPerMeter config w = 0).
Proof.
  unfold calculateSlabLoadPerMeter.
  repeat split; intros; repeat match goal with H : _ = _ |- _ => rewrite H; clear H end;
    reflexivity.
Qed.

Lemma slab_transfer_rule_witness :
  calculateSlabLoadPerMeter oneWaySide 7 = 7 * 3 / 2
  /\ calculateSlabLoadPerMeter (leftSlab initialInputs) 7 = 7 * 3 / 3
  /\ calculateSlabLoadPerMeter longEdgeSide 7
       = (7 * 3 / 2) * (1 - 1 / (3 * (4.5 / 3) ^ 2))
  /\ calculateSlabLoadPerMeter (rightSlab initialInputs) 7 = 0.
Proof.
  split; [| split; [| split]].
  - exact (proj1 (slab_transfer_rule oneWaySide 7) eq_refl eq_refl).
  - exact (proj1 (proj2 (slab_transfer_rule (leftSlab initialInputs) 7))
             eq_refl eq_refl eq_refl).
  - exact (proj1 (proj2 (proj2 (slab_transfer_rule longEdgeSide 7)))
             eq_refl eq_refl eq_refl).
  - exact (proj2 (proj2 (proj2 (slab_transfer_rule (rightSlab initialInputs) 7)))
             eq_refl).
Defined.

(** C7, as the engine has it.  The wall load per unit length is
    (thickness / 1000) x height x 20: the density is the fixed constant
    [MASONRY_DENSITY] of the engine, and a density supplied with the
    inputs changes nothing in the result. *)
Theorem wallLoad_fixed_density (inputs : DesignInputs) :
  wallLoad (calculateLoads inputs)
    = wallThickness inputs / 1000 * wallHeight inputs * 20
  /\ forall rho : R,
       calculateLoads (with_masonryDensity rho inputs) = calculateLoads inputs.
Proof.
  split; [reflexivity | intros rho; reflexivity].
Qed.

(** C7, as the specification words it, fails: with blocks of density 10
    the engine still reports 13.8 kN/m for a 230 mm wall of 3 m, not
    0.23 x 3 x 10 = 6.9 kN/m. *)
Lemma wallLoad_ignores_supplied_density :
  wallLoad (calculateLoads inputsLightBlocks)
    <> wallThickness inputsLightBlocks / 1000 * wallHeight inputsLightBlocks
       * masonryDensity inputsLightBlocks.
Proof.
  unfold calculateLoads, MASONRY_DENSITY. cbn. lra.
Qed.

(** ** Section analysis *)

(** C6. With no point loads and a positive span the peak moment is
    w L^2 / 8, the peak shear w L / 2 and the effective depth is the beam
    depth less the effective cover, for the factored UDL [w] of any load
    result. *)
Theorem udl_only_peaks (inputs : DesignInputs) (loads : LoadResult) :
  pointLoads inputs = [] ->
  0 < beamClearSpan inputs ->
  let L := beamClearSpan inputs in
  let w := totalDesignUDL loads in
  let a := analyzeBeam inputs loads in
  maxMoment a = w * L ^ 2 / 8
  /\ maxShear a = w * L / 2
  /\ effectiveDepth a = beamDepth inputs - effectiveCover inputs.
Proof.
  intros _ _. cbv zeta. unfold analyzeBeam. cbn [maxMoment maxShear effectiveDepth].
  repeat split; try reflexivity. field.
Qed.

Lemma udl_only_peaks_witness :
  let a := analyzeBeam initialInputs (calculateLoads initialInputs) in
  let w := totalDesignUDL (calculateLoads initialInputs) in
  maxMoment a = w * 3 ^ 2 / 8 /\ maxShear a = w * 3 / 2 /\ effectiveDepth a = 450 - 25.
Proof.
  apply (udl_only_peaks initialInputs (calculateLoads initialInputs)).
  - reflexivity.
  - cbn. lra.
Defined.

(** C3, as the engine has it.  The engine takes no account of point
    loads: whatever point loads the inputs carry, the load result is the
    one of the distributed loads alone, and the peak shear and the peak
    moment are those of the UDL, w L / 2 and w L^2 / 8. *)
Theorem analysis_ignores_point_loads (inputs : DesignInputs) (pls : list PointLoad) :
  let loads := calculateLoads (with_pointLoads pls inputs) in
  let a := analyzeBeam (with_pointLoads pls inputs) loads in
  let L := beamClearSpan inputs in
  loads = calculateLoads inputs
  /\ a = analyzeBeam inputs (calculateLoads inputs)
  /\ maxShear a = totalDesignUDL loads * L / 2
  /\ maxMoment a = totalDesignUDL loads * L ^ 2 / 8.
Proof.
  cbv zeta. repeat split; try reflexivity.
  unfold analyzeBeam. cbn [maxMoment with_pointLoads beamClearSpan]. field.
Qed.

(** C3, as the specification words it, fails: for 10 kN at the middle
    of the 3 m span the specified peak shear exceeds the UDL peak by the
    end reaction of the factored load, and the engine returns the UDL peak. *)
Lemma peak_shear_omits_point_load :
  let loads := calculateLoads inputsWithPointLoad in
  maxShear (analyzeBeam inputsWithPointLoad loads)
    <> spec_peakShear (totalDesignUDL loads) (beamClearSpan inputsWithPointLoad)
         (spec_factoredPointLoads (pointLoads inputsWithPointLoad)).
Proof.
  cbv zeta. unfold spec_peakShear, analyzeBeam. cbn.
  replace (Rmax (3 / 2) (3 - 3 / 2)) with (3 / 2)
    by (symmetry; apply Rmax_left; lra).
  lra.
Qed.

(** ** The shear capacity of concrete *)

(** Splitting on every comparison of the search loop. *)
Ltac split_cmp :=
  repeat match goal with
  | |- context [Num.gtb ?a ?b] =>
      let E := fresh "E" in
      destruct (Num.gtb a b) eqn:E;
      [apply gtb_true in E | apply gtb_false in E]; cbn;
      try (exfalso; lra)
  end.

(** The search loop leaves by its own condition, not for want of fuel. *)
Lemma find_idx_exits (x : R) :
  let idx := find_idx (length points) x 0 in
  (idx <? length points - 1)%nat && Num.gtb x (nth (idx + 1) points 0) = false.
Proof.
  cbv zeta. unfold points. cbn. split_cmp; try reflexivity;
    apply gtb_false; lra.
Qed.

(** [getTauC] interpolates linearly in the table. *)
Lemma tauM20_at_interpolate (x : R) : tauM20_at x = interpolate tauTable x.
Proof.
  unfold tauM20_at, tauTable, points, m20vals. cbn.
  split_cmp; decide_cmp; try reflexivity.
Qed.

Lemma clampPt_range (pt : R) : 0.15 <= clampPt pt <= 3.
Proof.
  unfold clampPt. split.
  - apply Rmin_glb; [apply Rmax_r | lra].
  - apply Rmin_r.
Qed.

Lemma clampPt_ge_2 (pt : R) : 2 <= clampPt pt <-> 2 <= pt.
Proof.
  unfold clampPt, Rmin, Rmax.
  destruct (Rle_dec pt 0.15); destruct (Rle_dec _ 3); split; intros; lra.
Qed.

(** Past the last breakpoint the table is flat. *)
Lemma interpolate_plateau (x : R) : 2 <= x -> interpolate tauTable x = 0.79.
Proof.
  intros Hx. unfold tauTable, points, m20vals. cbn.
  repeat match goal with
  | |- context [Num.leb x ?p] =>
      replace (Num.leb x p) with false by (symmetry; apply leb_false; lra)
  end.
  destruct (Num.leb x 2) eqn:E; [apply leb_true in E | reflexivity].
  replace x with 2 by lra. lra.
Qed.

(** Within the clamp the interpolated value stays between the ends of the
    table. *)
Lemma interpolate_bounds (x : R) :
  0.15 <= x -> 0.28 <= interpolate tauTable x <= 0.79.
Proof.
  intros Hx. unfold tauTable, points, m20vals. cbn.
  repeat match goal with
  | |- context [Num.leb x ?p] =>
      let E := fresh "E" in
      destruct (Num.leb x p) eqn:E;
      [apply leb_true in E; lra | apply leb_false in E]
  end.
  lra.
Qed.

(** Rounding to hundredths: a whole number of hundredths, at most half a
    hundredth away. *)
Lemma nearest_hundredth_spec (x : R) :
  exists n : Z,
    Num.nearest_hundredth x = IZR n / 100
    /\ - 0.005 < Num.nearest_hundredth x - x <= 0.005.
Proof.
  unfold Num.nearest_hundredth, Num.floor.
  exists (Int_part (x * 100 + 0.5)). split; [reflexivity |].
  destruct (base_Int_part (x * 100 + 0.5)) as [H1 H2]. lra.
Qed.

Lemma toFixed2_small (x : R) :
  0 <= x -> x < 10 ^ 21 -> Num.toFixed2 x = Num.nearest_hundredth x.
Proof.
  intros H0 H1. unfold Num.toFixed2.
  replace (Num.ltb x 0) with false by (symmetry; apply ltb_false; lra).
  replace (Num.leb (10 ^ 21) x) with false by (symmetry; apply leb_false; lra).
  reflexivity.
Qed.

(** C10. At every grade the capacity is the same for any two percentages
    of steel that the clamp leaves at 2.0 or above: it is the rounded
    product of the last table value 0.79 and the grade factor.  In general
    the capacity is the value interpolated in the M20 table at the clamped
    percentage, times the grade factor 1 + (fck - 20) * 0.01, rounded to two
    decimals: for the grades of the engine a whole number of hundredths
    within half a hundredth of that product. *)
Theorem getTauC_plateau_and_rounding :
  (forall fck pt1 pt2 : R,
      2 <= clampPt pt1 -> 2 <= clampPt pt2 ->
      getTauC pt1 fck = getTauC pt2 fck
      /\ getTauC pt1 fck = Num.toFixed2 (0.79 * (1 + (fck - 20) * 0.01)))
  /\ (forall pt fck : R,
      getTauC pt fck
        = Num.toFixed2 (interpolate tauTable (clampPt pt) * (1 + (fck - 20) * 0.01)))
  /\ (forall (pt : R) (g : ConcreteGrade),
      let product :=
        interpolate tauTable (clampPt pt) * (1 + (ConcreteGrade_value g - 20) * 0.01) in
      exists n : Z,
        getTauC pt (ConcreteGrade_value g) = IZR n / 100
        /\ - 0.005 < getTauC pt (ConcreteGrade_value g) - product <= 0.005).
Proof.
  assert (G : forall pt fck : R,
      getTauC pt fck
        = Num.toFixed2 (interpolate tauTable (clampPt pt) * (1 + (fck - 20) * 0.01))).
  { intros pt fck. unfold getTauC, gradeFactor. fold (clampPt pt).
    now rewrite tauM20_at_interpolate. }
  split; [| split].
  - intros fck pt1 pt2 H1 H2. rewrite !G.
    rewrite (interpolate_plateau _ H1), (interpolate_plateau _ H2). split; reflexivity.
  - exact G.
  - intros pt g. cbv zeta. rewrite G.
    pose proof (clampPt_range pt) as [Hlo _].
    pose proof (interpolate_bounds _ Hlo) as [Ha Hb].
    set (t := interpolate tauTable (clampPt pt)) in *.
    assert (Hf : 1 <= 1 + (ConcreteGrade_value g - 20) * 0.01 <= 1.15)
      by (destruct g; cbn; lra).
    set (f := 1 + (ConcreteGrade_value g - 20) * 0.01) in *.
    assert (Hp : 0 <= t * f < 1) by nra.
    rewrite toFixed2_small by lra.
    apply nearest_hundredth_spec.
Qed.

Lemma getTauC_plateau_and_rounding_witness :
  getTauC 2 20 = getTauC 2.5 20
  /\ getTauC 2 20 = Num.toFixed2 (0.79 * (1 + (20 - 20) * 0.01)).
Proof.
  apply (proj1 getTauC_plateau_and_rounding 20 2 2.5).
  - apply clampPt_ge_2. lra.
  - apply clampPt_ge_2. lra.
Defined.

(** ** Logarithms *)

Lemma ln_le_minus_1 (r : R) : 0 < r -> ln r <= r - 1.
Proof.
  intros Hr. pose proof (exp_ineq1_le (ln r)) as H.
  rewrite exp_ln in H by assumption. lra.
Qed.

Lemma ln_le_compat (x y : R) : 0 < x -> x <= y -> ln x <= ln y.
Proof.
  intros Hx [Hlt | ->]; [left; now apply ln_increasing | right; reflexivity].
Qed.

Lemma ln_10_ge_2 : 2 <= ln 10.
Proof.
  assert (H3 : 1 <= ln 3).
  { rewrite <- (ln_exp 1). apply ln_le_compat; [apply exp_pos | apply exp_le_3]. }
  assert (H9 : ln (3 * 3) <= ln 10) by (apply ln_le_compat; lra).
  rewrite ln_mult in H9 by lra. lra.
Qed.

Lemma log10_1 : Num.log10 1 = 0.
Proof. unfold Num.log10. rewrite ln_1. unfold Rdiv. ring. Qed.

Lemma log10_10 : Num.log10 10 = 1.
Proof. unfold Num.log10. pose proof ln_10_ge_2. field. lra. Qed.

Lemma log10_le_compat (x y : R) : 0 < x -> x <= y -> Num.log10 x <= Num.log10 y.
Proof.
  intros Hx Hxy. unfold Num.log10, Rdiv.
  apply Rmult_le_compat_r.
  - left. apply Rinv_0_lt_compat. pose proof ln_10_ge_2. lra.
  - now apply ln_le_compat.
Qed.

(** Scaling the argument by [r > 1] adds to the decimal logarithm at most
    half of [r - 1]. *)
Lemma log10_scale (x y r : R) :
  0 < x -> 0 < y -> 1 < r -> x <= r * y ->
  Num.log10 x <= Num.log10 y + (r - 1) / 2.
Proof.
  intros Hx Hy Hr Hxy.
  assert (H : Num.log10 x <= Num.log10 (r * y)) by (apply log10_le_compat; lra).
  unfold Num.log10 in *. rewrite ln_mult in H by lra.
  pose proof ln_10_ge_2 as H10. pose proof (ln_le_minus_1 r ltac:(lra)) as Hl.
  assert (Hl0 : 0 <= ln r).
  { rewrite <- ln_1. apply ln_le_compat; lra. }
  assert (Hq : ln r / ln 10 <= (r - 1) / 2).
  { apply Rmult_le_reg_r with (ln 10); [lra |].
    replace (ln r / ln 10 * ln 10) with (ln r) by (field; lra).
    nra. }
  replace ((ln r + ln y) / ln 10) with (ln y / ln 10 + ln r / ln 10) in H
    by (field; lra).
  lra.
Qed.

(** ** The deflection check *)

Lemma checkDeflection_kt (spanM d astReq astProv b fy : R) :
  dr_modificationFactorKt (checkDeflection spanM d astReq astProv b fy)
    = ktOfDenominator (ktDenominator d astReq astProv b fy).
Proof.
  unfold checkDeflection, ktOfDenominator, ktDenominator.
  cbn [dr_modificationFactorKt].
  replace (astProv / (b * d) * 100) with (100 * astProv / (b * d))
    by (unfold Rdiv; ring).
  reflexivity.
Qed.

Lemma ktOfDenominator_range (D : R) : 0.7 <= ktOfDenominator D <= 2.
Proof.
  unfold ktOfDenominator. split.
  - apply Rmin_glb; [apply Rmax_r | lra].
  - apply Rmin_r.
Qed.

Lemma checkDeflection_allowable (spanM d astReq astProv b fy : R) :
  let r := checkDeflection spanM d astReq astProv b fy in
  dr_allowableLbyD r = 20 * dr_modificationFactorKt r.
Proof. reflexivity. Qed.

Lemma checkDeflection_passed (spanM d astReq astProv b fy : R) :
  let r := checkDeflection spanM d astReq astProv b fy in
  dr_deflectionCheckPassed r = true <-> dr_actualLbyD r <= dr_allowableLbyD r.
Proof.
  cbv zeta. unfold checkDeflection.
  cbn [dr_deflectionCheckPassed dr_actualLbyD dr_allowableLbyD].
  apply leb_true.
Qed.

(** C8. The deflection check: the percentage of steel floored at 0.1,
    the service stress, the modification factor (reciprocal of the
    denominator when positive, 1 otherwise, clamped to [0.7, 2.0]), the
    allowable ratio 20 kt, the actual ratio span (mm) over effective depth,
    and the verdict, which is positive exactly when actual <= allowable. *)
Theorem checkDeflection_rule (spanM d astReq astProv b fy : R) :
  let pt := Rmax (100 * astProv / (b * d)) 0.1 in
  let fs := 0.58 * fy * (astReq / astProv) in
  let denominator := 0.225 + 0.0032 * fs - 0.625 * Num.log10 pt in
  let r := checkDeflection spanM d astReq astProv b fy in
  (0 < denominator ->
     dr_modificationFactorKt r = Rmin (Rmax (1 / denominator) 0.7) 2)
  /\ (denominator <= 0 -> dr_modificationFactorKt r = 1)
  /\ 0.7 <= dr_modificationFactorKt r <= 2
  /\ dr_basicLbyD r = 20
  /\ dr_allowableLbyD r = 20 * dr_modificationFactorKt r
  /\ dr_actualLbyD r = spanM * 1000 / d
  /\ (dr_deflectionCheckPassed r = true <-> dr_actualLbyD r <= dr_allowableLbyD r).
Proof.
  cbv zeta.
  split; [| split; [| split; [| split; [| split; [| split]]]]].
  - intros HD. rewrite checkDeflection_kt. unfold ktOfDenominator, ktDenominator.
    cbv zeta.
    replace (Num.gtb _ 0) with true by (symmetry; apply gtb_true; lra).
    reflexivity.
  - intros HD. rewrite checkDeflection_kt. unfold ktOfDenominator, ktDenominator.
    cbv zeta.
    replace (Num.gtb _ 0) with false by (symmetry; apply gtb_false; lra).
    unfold Rmin, Rmax.
    destruct (Rle_dec 1 0.7); [lra |]. destruct (Rle_dec 1 2); lra.
  - rewrite checkDeflection_kt. apply ktOfDenominator_range.
  - reflexivity.
  - reflexivity.
  - reflexivity.
  - apply checkDeflection_passed.
Qed.

Lemma checkDeflection_rule_witness :
  dr_modificationFactorKt (checkDeflection 3 425 977.5 977.5 230 500)
    = Rmin (Rmax (1 / (0.225 + 0.0032 * (0.58 * 500 * (977.5 / 977.5))
                       - 0.625 * Num.log10 (Rmax (100 * 977.5 / (230 * 425)) 0.1)))
                 0.7) 2
  /\ dr_modificationFactorKt (checkDeflection 3 1000 1000 10000 100 415) = 1.
Proof.
  split.
  - apply (proj1 (checkDeflection_rule 3 425 977.5 977.5 230 500)).
    replace (100 * 977.5 / (230 * 425)) with 1 by lra.
    rewrite Rmax_left by lra. rewrite log10_1. lra.
  - apply (proj1 (proj2 (checkDeflection_rule 3 1000 1000 10000 100 415))).
    replace (100 * 10000 / (100 * 1000)) with 10 by lra.
    rewrite Rmax_left by lra. rewrite log10_10. lra.
Defined.

(** *** Monotonicity in the effective depth *)

(** The floored percentage of steel does not grow with the depth, and
    shrinks at most in proportion to it. *)
Lemma safePt_depth (c d1 d2 : R) :
  0 < d1 -> d1 < d2 ->
  let s1 := Rmax (c / d1) 0.1 in
  let s2 := Rmax (c / d2) 0.1 in
  s2 <= s1 /\ s1 <= (d2 / d1) * s2.
Proof.
  intros H1 H12. cbv zeta.
  assert (Hr : 1 < d2 / d1).
  { apply Rmult_lt_reg_r with d1; [lra |].
    replace (d2 / d1 * d1) with d2 by (field; lra). lra. }
  assert (Hc : c / d1 = d2 / d1 * (c / d2)) by (field; lra).
  set (r := d2 / d1) in *. set (p2 := c / d2) in *. rewrite Hc.
  unfold Rmax.
  destruct (Rle_dec (r * p2) 0.1); destruct (Rle_dec p2 0.1); split; try nra.
Qed.

(** The denominator does not shrink with the depth, and grows by at most
    0.3125 (d2 / d1 - 1). *)
Lemma ktDenominator_depth (d1 d2 astReq astProv b fy : R) :
  0 < d1 -> d1 < d2 ->
  let D1 := ktDenominator d1 astReq astProv b fy in
  let D2 := ktDenominator d2 astReq astProv b fy in
  D1 <= D2 /\ D2 <= D1 + 0.3125 * (d2 / d1 - 1).
Proof.
  intros H1 H12. cbv zeta. unfold ktDenominator. cbv zeta.
  replace (100 * astProv / (b * d1)) with ((100 * astProv / b) / d1)
    by (unfold Rdiv; rewrite Rinv_mult; ring).
  replace (100 * astProv / (b * d2)) with ((100 * astProv / b) / d2)
    by (unfold Rdiv; rewrite Rinv_mult; ring).
  destruct (safePt_depth (100 * astProv / b) d1 d2 H1 H12) as [Ha Hb].
  pose proof (Rmax_r (100 * astProv / b / d1) 0.1) as Hs1.
  pose proof (Rmax_r (100 * astProv / b / d2) 0.1) as Hs2.
  set (s1 := Rmax (100 * astProv / b / d1) 0.1) in *.
  set (s2 := Rmax (100 * astProv / b / d2) 0.1) in *.
  assert (Hs1' : 0 < s1) by lra.
  assert (Hs2' : 0 < s2) by lra.
  assert (Hr : 1 < d2 / d1).
  { apply Rmult_lt_reg_r with d1; [lra |].
    replace (d2 / d1 * d1) with d2 by (field; lra). lra. }
  pose proof (log10_le_compat s2 s1 Hs2' Ha) as Hmono.
  pose proof (log10_scale s1 s2 (d2 / d1) Hs1' Hs2' Hr Hb) as Hscale.
  split; lra.
Qed.

(** Splitting on every comparison inside a [Rmin] or [Rmax]. *)
Ltac split_minmax :=
  unfold Rmin, Rmax;
  repeat match goal with
  | |- context [Rle_dec ?a ?b] => destruct (Rle_dec a b)
  | H : context [Rle_dec ?a ?b] |- _ => destruct (Rle_dec a b)
  end.

(** The modification factor shrinks at most in proportion to the depth. *)
Lemma ktOfDenominator_step (D1 D2 r : R) :
  1 < r -> D1 <= D2 -> D2 <= D1 + 0.3125 * (r - 1) ->
  ktOfDenominator D1 <= r * ktOfDenominator D2.
Proof.
  intros Hr H12 Hstep. unfold ktOfDenominator.
  destruct (Num.gtb D2 0) eqn:E2; [apply gtb_true in E2 | apply gtb_false in E2];
  (destruct (Num.gtb D1 0) eqn:E1; [apply gtb_true in E1 | apply gtb_false in E1]);
    try (exfalso; lra).
  - assert (U1 : D1 * (1 / D1) = 1) by (field; lra).
    assert (U2 : D2 * (1 / D2) = 1) by (field; lra).
    assert (P1 : 0 < 1 / D1) by (apply Rdiv_lt_0_compat; lra).
    assert (P2 : 0 < 1 / D2) by (apply Rdiv_lt_0_compat; lra).
    set (u1 := 1 / D1) in *. set (u2 := 1 / D2) in *.
    assert (F1 : u1 * u2 * D2 = u1)
      by (transitivity (u1 * (D2 * u2)); [ring | rewrite U2; ring]).
    assert (F2 : u1 * u2 * D1 = u2)
      by (transitivity (u2 * (D1 * u1)); [ring | rewrite U1; ring]).
    assert (K : u1 * u2 * D2 <= u1 * u2 * (D1 + 0.3125 * (r - 1))).
    { apply Rmult_le_compat_l; [nra | lra]. }
    assert (K' : u1 <= u2 + 0.3125 * (r - 1) * (u1 * u2)) by nra.
    assert (Q : 0 <= (r - 1) * u2) by nra.
    split_minmax; first [lra | nra].
  - assert (U2 : D2 * (1 / D2) = 1) by (field; lra).
    assert (P2 : 0 < 1 / D2) by (apply Rdiv_lt_0_compat; lra).
    set (u2 := 1 / D2) in *.
    split_minmax; first [lra | nra].
  - split_minmax; first [lra | nra].
Qed.

(** C9. Deepening the section, all else fixed, strictly lowers the
    actual span/depth ratio of a beam of positive span and never turns a
    passing deflection check into a failing one. *)
Theorem deeper_section_keeps_deflection_pass
    (spanM d1 d2 astReq astProv b fy : R) :
  0 < d1 -> d1 < d2 ->
  let r1 := checkDeflection spanM d1 astReq astProv b fy in
  let r2 := checkDeflection spanM d2 astReq astProv b fy in
  (0 < spanM -> dr_actualLbyD r2 < dr_actualLbyD r1)
  /\ (dr_deflectionCheckPassed r1 = true -> dr_deflectionCheckPassed r2 = true).
Proof.
  intros H1 H12. cbv zeta.
  assert (Hr : 1 < d2 / d1).
  { apply Rmult_lt_reg_r with d1; [lra |].
    replace (d2 / d1 * d1) with d2 by (field; lra). lra. }
  assert (Hact : dr_actualLbyD (checkDeflection spanM d1 astReq astProv b fy)
                 = d2 / d1 * dr_actualLbyD (checkDeflection spanM d2 astReq astProv b fy)).
  { unfold checkDeflection. cbn [dr_actualLbyD]. field. lra. }
  split.
  - intros Hs.
    assert (Hpos : 0 < dr_actualLbyD (checkDeflection spanM d2 astReq astProv b fy)).
    { unfold checkDeflection. cbn [dr_actualLbyD]. apply Rdiv_lt_0_compat; lra. }
    rewrite Hact. nra.
  - intros Hpass.
    pose proof (checkDeflection_allowable spanM d1 astReq astProv b fy) as Hall1.
    pose proof (checkDeflection_allowable spanM d2 astReq astProv b fy) as Hall2.
    pose proof (checkDeflection_passed spanM d1 astReq astProv b fy) as Hiff1.
    pose proof (checkDeflection_passed spanM d2 astReq astProv b fy) as Hiff2.
    cbv zeta in *.
    apply Hiff2. apply Hiff1 in Hpass.
    rewrite Hall1 in Hpass. rewrite Hall2.
    rewrite !checkDeflection_kt in *.
    destruct (ktDenominator_depth d1 d2 astReq astProv b fy H1 H12) as [Hmono Hstep].
    pose proof (ktOfDenominator_step _ _ _ Hr Hmono Hstep) as Hkt.
    rewrite Hact in Hpass. nra.
Qed.

Lemma deeper_section_keeps_deflection_pass_witness :
  let r1 := checkDeflection 3 425 977.5 977.5 230 500 in
  let r2 := checkDeflection 3 500 977.5 977.5 230 500 in
  dr_actualLbyD r2 < dr_actualLbyD r1 /\ dr_deflectionCheckPassed r2 = true.
Proof.
  destruct (deeper_section_keeps_deflection_pass 3 425 500 977.5 977.5 230 500)
    as [Hlt Himp]; try lra.
  split; [apply Hlt; lra |]. apply Himp.
  apply checkDeflection_passed. rewrite checkDeflection_allowable.
  rewrite checkDeflection_kt.
  pose proof (ktOfDenominator_range (ktDenominator 425 977.5 977.5 230 500)) as [Hlo _].
  unfold checkDeflection. cbn [dr_actualLbyD]. lra.
Defined.

(** ** Flexure and shear design *)

Lemma floor_0 : Num.floor 0 = 0%Z.
Proof. unfold Num.floor. symmetry. apply Int_part_spec. simpl. lra. Qed.

(** On the grades of the engine the selected maximum shear stress is the
    step function of the specification. *)
Lemma tcMax_of_grade (g : ConcreteGrade) :
  tcMax_of (ConcreteGrade_value g) = spec_tcMax (ConcreteGrade_value g).
Proof.
  destruct g; unfold tcMax_of, spec_tcMax; cbn [ConcreteGrade_value];
    decide_cmp; reflexivity.
Qed.

(** C5. When the nominal shear stress V * 1000 / (b d) exceeds the
    maximum permissible stress, the stirrup spacing is 0 and shear
    reinforcement is not marked as required; the maximum is the step
    function 2.8 / 3.1 / 3.5 / 4.0 of the concrete strength. *)
Theorem shear_failure_rule (inputs : DesignInputs) (analysis : AnalysisResult) :
  let fck := ConcreteGrade_value (fck inputs) in
  let tv := maxShear analysis * 1000 / (beamWidth inputs * effectiveDepth analysis) in
  let r := designBeam inputs analysis in
  tcMax_of fck = spec_tcMax fck
  /\ (spec_tcMax fck < tv ->
      stirrupSpacing r = 0%Z /\ shearReinforcementRequired r = false).
Proof.
  cbv zeta. split; [apply tcMax_of_grade |].
  rewrite <- tcMax_of_grade. intros Hfail. apply gtb_true in Hfail.
  unfold designBeam. cbv zeta. rewrite Hfail.
  cbn [stirrupSpacing shearReinforcementRequired].
  split; [apply floor_0 | reflexivity].
Qed.

Lemma shear_failure_rule_witness :
  let r := designBeam slenderInputs
             (analyzeBeam slenderInputs (calculateLoads slenderInputs)) in
  stirrupSpacing r = 0%Z /\ shearReinforcementRequired r = false.
Proof.
  apply (proj2 (shear_failure_rule slenderInputs
                  (analyzeBeam slenderInputs (calculateLoads slenderInputs)))).
  unfold spec_tcMax. cbn [slenderInputs fck ConcreteGrade_value].
  decide_cmp.
  unfold analyzeBeam, calculateLoads, calculateSlabLoadPerMeter,
    CONCRETE_DENSITY, MASONRY_DENSITY, PARTIAL_SAFETY_FACTOR_LOAD.
  cbn. lra.
Defined.

Lemma k_lim_of_table (g : SteelGrade) :
  k_lim_of g = match g with Fe415 => 0.138 | Fe500 => 0.133 | Fe550 => 0.129 end.
Proof. destruct g; reflexivity. Qed.

(** The flexure fields of the result do not depend on the shear branch. *)
Lemma designBeam_flexure (inputs : DesignInputs) (analysis : AnalysisResult) :
  let fckv := ConcreteGrade_value (fck inputs) in
  let fyv := SteelGrade_value (fy inputs) in
  let b := beamWidth inputs in
  let d := effectiveDepth analysis in
  let Mu := maxMoment analysis in
  let MuLim := k_lim_of (fy inputs) * fckv * b * d * d / 1000000 in
  let r := designBeam inputs analysis in
  muLim r = MuLim
  /\ isDoublyReinforced r = Num.gtb Mu MuLim
  /\ astRequired r
      = Rmax
          (if Num.gtb Mu MuLim
           then (0.5 * fckv / fyv)
                * (1 - sqrt (1 - (4.6 * (MuLim * 1000000)) / (fckv * b * d * d)))
                * b * d
           else (0.5 * fckv / fyv)
                * (1 - sqrt (Rmax 0 (1 - (4.6 * (Mu * 1000000)) / (fckv * b * d * d))))
                * b * d)
          ((0.85 * b * d) / fyv).
Proof.
  cbv zeta. unfold designBeam. cbv zeta.
  match goal with
  | |- context [let '(_, _) := ?c in _] => destruct c
  end.
  repeat split; reflexivity.
Qed.

(** C4. For a section of positive width and effective depth: the
    limiting moment is k fck b d^2 / 10^6 with k = 0.138, 0.133, 0.129 for
    Fe415, Fe500, Fe550; the section is flagged doubly reinforced exactly
    when Mu exceeds it; and the required steel is the larger of the
    quadratic-formula area, taken at the limiting moment when doubly
    reinforced and at Mu otherwise, and the minimum 0.85 b d / fy. *)
Theorem flexure_rule (inputs : DesignInputs) (analysis : AnalysisResult) :
  0 < beamWidth inputs -> 0 < effectiveDepth analysis ->
  let fck := ConcreteGrade_value (fck inputs) in
  let steel := fy inputs in
  let fy := SteelGrade_value steel in
  let b := beamWidth inputs in
  let d := effectiveDepth analysis in
  let Mu := maxMoment analysis in
  let k := match steel with Fe415 => 0.138 | Fe500 => 0.133 | Fe550 => 0.129 end in
  let MuLim := k * fck * b * d ^ 2 / 1000000 in
  let Ast := fun M : R =>
    0.5 * (fck / fy)
    * (1 - sqrt (Rmax 0 (1 - 4.6 * M * 1000000 / (fck * b * d ^ 2)))) * b * d in
  let r := designBeam inputs analysis in
  muLim r = MuLim
  /\ (isDoublyReinforced r = true <-> MuLim < Mu)
  /\ astRequired r
      = Rmax (Ast (if isDoublyReinforced r then MuLim else Mu)) (0.85 * b * d / fy).
Proof.
  intros Hb Hd. cbv zeta.
  assert (Hfck : 0 < ConcreteGrade_value (fck inputs)) by (destruct (fck inputs); cbn; lra).
  destruct (designBeam_flexure inputs analysis) as (HmuLim & Hdoubly & Hast).
  cbv zeta in HmuLim, Hdoubly, Hast.
  rewrite HmuLim, Hdoubly, Hast. clear HmuLim Hdoubly Hast.
  rewrite k_lim_of_table.
  set (k := match fy inputs with Fe415 => 0.138 | Fe500 => 0.133 | Fe550 => 0.129 end).
  assert (Hk : 0 <= 1 - 4.6 * k) by (subst k; destruct (fy inputs); lra).
  set (fckv := ConcreteGrade_value (fck inputs)) in *.
  set (fyv := SteelGrade_value (fy inputs)).
  set (b := beamWidth inputs) in *. set (d := effectiveDepth analysis) in *.
  set (Mu := maxMoment analysis).
  replace (k * fckv * b * d * d / 1000000) with (k * fckv * b * d ^ 2 / 1000000)
    by (unfold Rdiv; ring).
  split; [reflexivity |]. split; [apply gtb_true |].
  f_equal.
  destruct (Num.gtb Mu (k * fckv * b * d ^ 2 / 1000000)).
  - replace (1 - 4.6 * (k * fckv * b * d ^ 2 / 1000000 * 1000000) / (fckv * b * d * d))
      with (1 - 4.6 * k) by (field; lra).
    replace (1 - 4.6 * (k * fckv * b * d ^ 2 / 1000000) * 1000000 / (fckv * b * d ^ 2))
      with (1 - 4.6 * k) by (field; lra).
    rewrite Rmax_right by exact Hk.
    unfold Rdiv. ring.
  - replace (4.6 * (Mu * 1000000) / (fckv * b * d * d))
      with (4.6 * Mu * 1000000 / (fckv * b * d ^ 2))
      by (unfold Rdiv; f_equal; [ring | f_equal; ring]).
    unfold Rdiv. ring.
Qed.

Lemma flexure_rule_witness :
  let a := analyzeBeam initialInputs (calculateLoads initialInputs) in
  let r := designBeam initialInputs a in
  muLim r = 0.133 * 20 * 230 * (450 - 25) ^ 2 / 1000000
  /\ isDoublyReinforced r = false.
Proof.
  cbv zeta.
  destruct (flexure_rule initialInputs
              (analyzeBeam initialInputs (calculateLoads initialInputs)))
    as (HmuLim & Hdoubly & _).
  - cbn. lra.
  - cbn. lra.
  - split; [exact HmuLim |].
    destruct (isDoublyReinforced _); [| reflexivity].
    exfalso. pose proof (proj1 Hdoubly eq_refl) as Hlt. revert Hlt.
    unfold analyzeBeam, calculateLoads, calculateSlabLoadPerMeter,
      CONCRETE_DENSITY, MASONRY_DENSITY, PARTIAL_SAFETY_FACTOR_LOAD.
    cbn. lra.
Defined.

(** Beyond the grades of the engine the selection still never exceeds
    the step function, so a stress above the step function is above the
    selected maximum for any strength. *)
Lemma tcMax_of_le_spec (f : R) : tcMax_of f <= spec_tcMax f.
Proof.
  unfold tcMax_of, spec_tcMax.
  destruct (Num.eqb f 40) eqn:E40; [apply eqb_true in E40 | apply eqb_false in E40];
  destruct (Num.geb f 30) eqn:E30; [apply geb_true in E30 | apply geb_false in E30 | |];
  destruct (Num.geb f 25) eqn:E25;
  destruct (Num.ltb f 25) eqn:L25; destruct (Num.ltb f 30) eqn:L30;
  destruct (Num.ltb f 40) eqn:L40;
  repeat match goal with
  | H : Num.geb _ _ = true |- _ => apply geb_true in H
  | H : Num.geb _ _ = false |- _ => apply geb_false in H
  | H : Num.ltb _ _ = true |- _ => apply ltb_true in H
  | H : Num.ltb _ _ = false |- _ => apply ltb_false in H
  end; lra.
Qed.

(** The deflection fields of the result are those of [checkDeflection] at
    the effective depth, the steel areas, the width and the grade of the
    design. *)
Lemma designBeam_deflection (inputs : DesignInputs) (analysis : AnalysisResult) :
  let r := designBeam inputs analysis in
  let c := checkDeflection (beamClearSpan inputs) (effectiveDepth analysis)
             (astRequired r) (astProvided r) (beamWidth inputs)
             (SteelGrade_value (fy inputs)) in
  actualLbyD r = dr_actualLbyD c
  /\ basicLbyD r = dr_basicLbyD c
  /\ modificationFactorKt r = dr_modificationFactorKt c
  /\ allowableLbyD r = dr_allowableLbyD c
  /\ deflectionCheckPassed r = dr_deflectionCheckPassed c.
Proof.
  cbv zeta. unfold designBeam. cbv zeta.
  match goal with
  | |- context [let '(_, _) := ?c in _] => destruct c
  end.
  repeat split; reflexivity.
Qed.

(** ** The initial scenario of the application, worked through *)

Example initial_loads :
  let r := calculateLoads initialInputs in
  udlFromLeftSlab r = 7.125 /\ udlFromRightSlab r = 0
  /\ beamSelfWeight r = 2.5875 /\ wallLoad r = 13.8
  /\ totalDesignUDL r = 35.26875.
Proof.
  unfold calculateLoads, calculateSlabLoadPerMeter,
    CONCRETE_DENSITY, MASONRY_DENSITY, PARTIAL_SAFETY_FACTOR_LOAD.
  cbn. repeat split; lra.
Qed.

Example initial_analysis :
  let a := analyzeBeam initialInputs (calculateLoads initialInputs) in
  maxMoment a = 39.67734375 /\ maxShear a = 52.903125 /\ effectiveDepth a = 425.
Proof.
  unfold analyzeBeam, calculateLoads, calculateSlabLoadPerMeter,
    CONCRETE_DENSITY, MASONRY_DENSITY, PARTIAL_SAFETY_FACTOR_LOAD.
  cbn. repeat split; lra.
Qed.

Example getTauC_at_one_percent : getTauC 1 20 = 0.62.
Proof.
  unfold getTauC.
  replace (Rmin (Rmax 1 0.15) 3) with 1
    by (rewrite Rmax_left by lra; rewrite Rmin_left by lra; reflexivity).
  rewrite tauM20_at_interpolate.
  unfold tauTable, points, m20vals, gradeFactor. cbn.
  decide_cmp.
  rewrite toFixed2_small by lra.
  unfold Num.nearest_hundredth, Num.floor.
  replace (Int_part _) with 62%Z; [lra |].
  apply Int_part_spec. simpl. lra.
Qed.

(** ** Further properties of the load aggregation *)

(** The trapezoidal factor 1 - 1 / (3 beta^2) lies between 2/3 and 1 when
    the long span is not below the short one. *)
Lemma trapezoidal_factor_range (lx ly : R) :
  0 < lx -> lx <= ly ->
  2 / 3 <= 1 - 1 / (3 * (ly / lx) ^ 2) < 1.
Proof.
  intros Hlx Hly.
  assert (Hb : 1 <= ly / lx).
  { apply Rmult_le_reg_r with lx; [lra |].
    replace (ly / lx * lx) with ly by (field; lra). lra. }
  set (beta := ly / lx) in *.
  assert (Hq : 3 <= 3 * beta ^ 2) by nra.
  assert (Hu : 0 < 1 / (3 * beta ^ 2)) by (apply Rdiv_lt_0_compat; lra).
  assert (Hv : (3 * beta ^ 2) * (1 / (3 * beta ^ 2)) = 1) by (field; nra).
  set (u := 1 / (3 * beta ^ 2)) in *.
  split; [nra | lra].
Qed.

(** X1. For one area load and one pair of spans, the three kinds of
    support are ordered: the triangular share of a short edge is at most
    the trapezoidal share of a long edge, which is at most the rectangular
    share of a one-way slab; the first two coincide only for a square
    panel or no load. *)
Theorem slab_share_ordering (w Lx Ly : R) :
  0 <= w -> 0 < Lx -> Lx <= Ly ->
  let side := fun t e =>
    {| enabled := true; type := t; lx := Lx; ly := Ly; supportEdge := e |} in
  let short := calculateSlabLoadPerMeter (side TwoWay Short) w in
  let long := calculateSlabLoadPerMeter (side TwoWay Long) w in
  let oneWay := calculateSlabLoadPerMeter (side OneWay Long) w in
  short <= long <= oneWay
  /\ (0 < w -> Lx < Ly -> short < long)
  /\ (0 < w -> long < oneWay).
Proof.
  intros Hw Hlx Hly. cbv zeta. unfold calculateSlabLoadPerMeter.
  cbn [negb enabled type lx ly supportEdge].
  pose proof (trapezoidal_factor_range Lx Ly Hlx Hly) as [Hlo Hhi].
  set (f := 1 - 1 / (3 * (Ly / Lx) ^ 2)) in *.
  assert (Hwl : 0 <= w * Lx) by nra.
  split; [split; nra |]. split.
  - intros Hw' Hlt.
    assert (Hb : 1 < Ly / Lx).
    { apply Rmult_lt_reg_r with Lx; [lra |].
      replace (Ly / Lx * Lx) with Ly by (field; lra). lra. }
    assert (Hf : 2 / 3 < f).
    { subst f. set (beta := Ly / Lx) in *.
      assert (Hq : 3 < 3 * beta ^ 2) by nra.
      assert (Hv : (3 * beta ^ 2) * (1 / (3 * beta ^ 2)) = 1) by (field; nra).
      assert (Hu : 0 < 1 / (3 * beta ^ 2)) by (apply Rdiv_lt_0_compat; lra).
      set (u := 1 / (3 * beta ^ 2)) in *. nra. }
    assert (Hwl' : 0 < w * Lx) by nra. nra.
  - intros Hw'. assert (Hwl' : 0 < w * Lx) by nra. nra.
Qed.

Lemma slab_share_ordering_witness :
  calculateSlabLoadPerMeter (leftSlab initialInputs) 7
    < calculateSlabLoadPerMeter longEdgeSide 7.
Proof.
  apply (proj1 (proj2 (slab_share_ordering 7 3 4.5 ltac:(lra) ltac:(lra) ltac:(lra))));
    lra.
Defined.

(** A side in range never takes load off the beam. *)
Lemma slab_share_nonneg (c : SlabSideConfig) (w : R) :
  0 <= w -> sideInRange c -> 0 <= calculateSlabLoadPerMeter c w.
Proof.
  intros Hw [Hlx Hlong]. unfold calculateSlabLoadPerMeter.
  destruct (enabled c); cbn [negb]; [| lra].
  destruct (type c); [nra |].
  destruct (supportEdge c); [nra |].
  destruct (Hlong eq_refl eq_refl) as [Hpos Hle].
  pose proof (trapezoidal_factor_range _ _ Hpos Hle) as [Hlo Hhi].
  set (f := 1 - 1 / (3 * (ly c / lx c) ^ 2)) in *.
  assert (0 <= w * lx c) by nra. nra.
Qed.

(** X2. With both slab sides disabled nothing of the slab reaches the
    beam: both shares and their sum are 0 and the total design UDL is 1.5
    times the self-weight of the beam plus the wall load, whatever the
    slab thickness, live load and floor finish. *)
Theorem no_slab_no_slab_load (inputs : DesignInputs) :
  enabled (leftSlab inputs) = false -> enabled (rightSlab inputs) = false ->
  let r := calculateLoads inputs in
  udlFromLeftSlab r = 0 /\ udlFromRightSlab r = 0 /\ udlTotalSlab r = 0
  /\ totalDesignUDL r
     = 1.5 * (beamWidth inputs / 1000 * (beamDepth inputs / 1000) * 25
              + wallThickness inputs / 1000 * wallHeight inputs * 20).
Proof.
  intros Hl Hr. cbv zeta.
  unfold calculateLoads, calculateSlabLoadPerMeter, CONCRETE_DENSITY,
    MASONRY_DENSITY, PARTIAL_SAFETY_FACTOR_LOAD.
  cbn [udlFromLeftSlab udlFromRightSlab udlTotalSlab totalDesignUDL].
  rewrite Hl, Hr. cbn [negb]. repeat split; ring.
Qed.

Lemma no_slab_no_slab_load_witness :
  udlTotalSlab (calculateLoads bareBeamInputs) = 0.
Proof.
  apply (no_slab_no_slab_load bareBeamInputs eq_refl eq_refl).
Defined.

(** X3. For inputs that are not negative and slab sides in range, no
    reported load is negative, and the total design UDL is at least 1.5
    times each of its parts. *)
Theorem loads_nonneg (inputs : DesignInputs) :
  0 <= slabThickness inputs -> 0 <= liveLoad inputs -> 0 <= floorFinish inputs ->
  0 <= beamWidth inputs -> 0 <= beamDepth inputs ->
  0 <= wallHeight inputs -> 0 <= wallThickness inputs ->
  sideInRange (leftSlab inputs) -> sideInRange (rightSlab inputs) ->
  let r := calculateLoads inputs in
  0 <= slabSelfWeight r /\ 0 <= totalSlabLoadArea r
  /\ 0 <= udlFromLeftSlab r /\ 0 <= udlFromRightSlab r /\ 0 <= udlTotalSlab r
  /\ 0 <= beamSelfWeight r /\ 0 <= wallLoad r
  /\ 1.5 * udlTotalSlab r <= totalDesignUDL r
  /\ 1.5 * beamSelfWeight r <= totalDesignUDL r
  /\ 1.5 * wallLoad r <= totalDesignUDL r.
Proof.
  intros Ht Hll Hff Hbw Hbd Hwh Hwt Hl Hr. cbv zeta.
  unfold calculateLoads, CONCRETE_DENSITY, MASONRY_DENSITY, PARTIAL_SAFETY_FACTOR_LOAD.
  cbn [slabSelfWeight totalSlabLoadArea udlFromLeftSlab udlFromRightSlab
       udlTotalSlab beamSelfWeight wallLoad totalDesignUDL].
  assert (Hw : 0 <= slabThickness inputs / 1000 * 25 + liveLoad inputs + floorFinish inputs)
    by lra.
  pose proof (slab_share_nonneg _ _ Hw Hl) as HL.
  pose proof (slab_share_nonneg _ _ Hw Hr) as HR.
  set (l := calculateSlabLoadPerMeter (leftSlab inputs) _) in *.
  set (rr := calculateSlabLoadPerMeter (rightSlab inputs) _) in *.
  assert (Hs : 0 <= beamWidth inputs / 1000 * (beamDepth inputs / 1000) * 25) by nra.
  assert (Hwl : 0 <= wallThickness inputs / 1000 * wallHeight inputs * 20) by nra.
  repeat split; lra.
Qed.

Lemma loads_nonneg_witness :
  0 <= totalSlabLoadArea (calculateLoads initialInputs).
Proof.
  refine (proj1 (proj2 (loads_nonneg initialInputs _ _ _ _ _ _ _ _ _)));
    try (cbn; lra); split; cbn; try lra; discriminate.
Defined.

(** X4. Exchanging the left and the right slab exchanges the two shares
    and leaves every other load, and the total design UDL, as it was. *)
Theorem swapSlabs_loads (inputs : DesignInputs) :
  let r := calculateLoads inputs in
  let r' := calculateLoads (swapSlabs inputs) in
  udlFromLeftSlab r' = udlFromRightSlab r
  /\ udlFromRightSlab r' = udlFromLeftSlab r
  /\ udlTotalSlab r' = udlTotalSlab r
  /\ beamSelfWeight r' = beamSelfWeight r
  /\ wallLoad r' = wallLoad r
  /\ totalDesignUDL r' = totalDesignUDL r.
Proof.
  cbv zeta. unfold calculateLoads.
  cbn [udlFromLeftSlab udlFromRightSlab udlTotalSlab beamSelfWeight wallLoad
       totalDesignUDL swapSlabs leftSlab rightSlab slabThickness liveLoad
       floorFinish beamWidth beamDepth wallThickness wallHeight].
  repeat split; ring.
Qed.

(** ** Further properties of the shear capacity of concrete *)

Lemma getTauC_unfold (pt fck : R) :
  getTauC pt fck
    = Num.toFixed2 (interpolate tauTable (clampPt pt) * gradeFactor fck).
Proof.
  unfold getTauC. fold (clampPt pt). now rewrite tauM20_at_interpolate.
Qed.

Lemma clampPt_mono (x y : R) : x <= y -> clampPt x <= clampPt y.
Proof.
  intros H. unfold clampPt. split_minmax; lra.
Qed.

(** Splitting on every comparison of the interpolation. *)
Ltac split_leb :=
  repeat match goal with
  | |- context [Num.leb ?v ?p] =>
      let E := fresh "E" in
      destruct (Num.leb v p) eqn:E;
      [apply leb_true in E | apply leb_false in E];
      cbv beta iota; try (exfalso; lra)
  end.

(** The table rises, and so does the interpolation through it. *)
Lemma interpolate_mono (x y : R) :
  x <= y -> interpolate tauTable x <= interpolate tauTable y.
Proof.
  intros H. unfold tauTable, points, m20vals. cbn.
  split_leb; lra.
Qed.

Lemma Int_part_mono (x y : R) : x <= y -> (Int_part x <= Int_part y)%Z.
Proof.
  intros H.
  destruct (base_Int_part x) as [Hx _]. destruct (base_Int_part y) as [_ Hy].
  apply Z.lt_succ_r. apply lt_IZR. rewrite succ_IZR. lra.
Qed.

Lemma nearest_hundredth_mono (x y : R) :
  x <= y -> Num.nearest_hundredth x <= Num.nearest_hundredth y.
Proof.
  intros H. unfold Num.nearest_hundredth, Num.floor.
  assert (Hz : (Int_part (x * 100 + 0.5) <= Int_part (y * 100 + 0.5))%Z)
    by (apply Int_part_mono; lra).
  apply IZR_le in Hz. lra.
Qed.

Lemma nearest_hundredth_exact (n : Z) :
  Num.nearest_hundredth (IZR n / 100) = IZR n / 100.
Proof.
  unfold Num.nearest_hundredth, Num.floor.
  replace (Int_part (IZR n / 100 * 100 + 0.5)) with n; [reflexivity |].
  apply Int_part_spec. lra.
Qed.

(** A number below 10^21 is printed with two decimals as a number that
    does not exceed 10^21. *)
Lemma nearest_hundredth_below_limit (x : R) :
  x < 10 ^ 21 -> Num.nearest_hundredth x <= 10 ^ 21.
Proof.
  intros H. unfold Num.nearest_hundredth, Num.floor.
  destruct (base_Int_part (x * 100 + 0.5)) as [Hlo _].
  assert (Hz : (Int_part (x * 100 + 0.5) < 10 ^ 23 + 1)%Z).
  { apply lt_IZR. rewrite plus_IZR.
    replace (IZR (10 ^ 23)) with (10 ^ 23) by exact (pow_IZR 10 23).
    lra. }
  assert (Hz' : (Int_part (x * 100 + 0.5) <= 10 ^ 23)%Z) by lia.
  apply IZR_le in Hz'.
  replace (IZR (10 ^ 23)) with (10 ^ 23) in Hz' by exact (pow_IZR 10 23).
  lra.
Qed.

(** Printing with two decimals keeps the order of numbers that are not
    negative. *)
Lemma toFixed2_mono (x y : R) :
  0 <= x -> x <= y -> Num.toFixed2 x <= Num.toFixed2 y.
Proof.
  intros H0 H. unfold Num.toFixed2.
  replace (Num.ltb x 0) with false by (symmetry; apply ltb_false; lra).
  replace (Num.ltb y 0) with false by (symmetry; apply ltb_false; lra).
  destruct (Num.leb (10 ^ 21) x) eqn:Ex; [apply leb_true in Ex | apply leb_false in Ex];
  (destruct (Num.leb (10 ^ 21) y) eqn:Ey; [apply leb_true in Ey | apply leb_false in Ey]).
  - exact H.
  - lra.
  - pose proof (nearest_hundredth_below_limit x Ex). lra.
  - now apply nearest_hundredth_mono.
Qed.

Lemma gradeFactor_nonneg (fck : R) : 0 <= fck -> 0.8 <= gradeFactor fck.
Proof. intros H. unfold gradeFactor. lra. Qed.

(** X5. More tension steel never lowers the shear capacity of the
    concrete, and a stronger concrete never lowers it either. *)
Theorem getTauC_monotone (pt1 pt2 fck1 fck2 : R) :
  pt1 <= pt2 -> 0 <= fck1 -> fck1 <= fck2 ->
  getTauC pt1 fck1 <= getTauC pt2 fck2.
Proof.
  intros Hpt H0 Hfck. rewrite !getTauC_unfold.
  pose proof (interpolate_mono _ _ (clampPt_mono _ _ Hpt)) as Hi.
  pose proof (interpolate_bounds _ (proj1 (clampPt_range pt1))) as [Hlo _].
  pose proof (gradeFactor_nonneg fck1 H0) as Hg.
  assert (Hgg : gradeFactor fck1 <= gradeFactor fck2) by (unfold gradeFactor; lra).
  apply toFixed2_mono; nra.
Qed.

Lemma getTauC_monotone_witness : getTauC 0.5 20 <= getTauC 1 25.
Proof. apply getTauC_monotone; lra. Defined.

(** X6. Below the first breakpoint the percentage of steel is clamped:
    every percentage up to 0.15 gives the capacity of 0.15, the rounded
    product of the first table value 0.28 and the grade factor; and for a
    strength that is not negative every capacity lies between that one and
    the capacity at 2. *)
Theorem getTauC_lower_clamp_and_range (pt fck : R) :
  (pt <= 0.15 ->
     getTauC pt fck = getTauC 0.15 fck
     /\ getTauC pt fck = Num.toFixed2 (0.28 * (1 + (fck - 20) * 0.01)))
  /\ (0 <= fck -> getTauC 0.15 fck <= getTauC pt fck <= getTauC 2 fck).
Proof.
  assert (Hlow : forall p, p <= 0.15 -> interpolate tauTable (clampPt p) = 0.28).
  { intros p Hp.
    replace (clampPt p) with 0.15 by (unfold clampPt; split_minmax; lra).
    unfold tauTable, points, m20vals. cbn. decide_cmp. lra. }
  split.
  - intros Hp. rewrite !getTauC_unfold.
    rewrite (Hlow pt Hp), (Hlow 0.15) by lra. split; reflexivity.
  - intros H0. rewrite !getTauC_unfold.
    pose proof (gradeFactor_nonneg fck H0) as Hg.
    rewrite (Hlow 0.15) by lra.
    rewrite (interpolate_plateau (clampPt 2)) by (unfold clampPt; split_minmax; lra).
    pose proof (interpolate_bounds _ (proj1 (clampPt_range pt))) as [Hlo Hhi].
    split; apply toFixed2_mono; nra.
Qed.

Lemma getTauC_lower_clamp_and_range_witness :
  getTauC 0.1 20 = getTauC 0.15 20
  /\ getTauC 0.15 20 <= getTauC 1 20 <= getTauC 2 20.
Proof.
  split.
  - apply (proj1 (getTauC_lower_clamp_and_range 0.1 20)). lra.
  - apply (proj2 (getTauC_lower_clamp_and_range 1 20)). lra.
Defined.

(** X7. For M20 the interpolation gives back the table: at each
    breakpoint the capacity is the tabulated value. *)
Theorem getTauC_reproduces_table (p t : R) :
  In (p, t) tauTable -> getTauC p 20 = t.
Proof.
  intros Hin. rewrite getTauC_unfold.
  unfold tauTable, points, m20vals in Hin. cbn in Hin.
  assert (Hg : gradeFactor 20 = 1) by (unfold gradeFactor; lra).
  rewrite Hg, Rmult_1_r.
  repeat (destruct Hin as [Hin | Hin];
    [ injection Hin as <- <-;
      match goal with
      | |- Num.toFixed2 (interpolate _ (clampPt ?q)) = ?v =>
          replace (clampPt q) with q by (unfold clampPt; split_minmax; lra);
          replace (interpolate tauTable q) with v
            by (unfold tauTable, points, m20vals; cbn; decide_cmp; lra);
          rewrite toFixed2_small by lra
      end | ]).
  - replace 0.28 with (IZR 28 / 100) by lra. apply nearest_hundredth_exact.
  - replace 0.36 with (IZR 36 / 100) by lra. apply nearest_hundredth_exact.
  - replace 0.48 with (IZR 48 / 100) by lra. apply nearest_hundredth_exact.
  - replace 0.56 with (IZR 56 / 100) by lra. apply nearest_hundredth_exact.
  - replace 0.62 with (IZR 62 / 100) by lra. apply nearest_hundredth_exact.
  - replace 0.67 with (IZR 67 / 100) by lra. apply nearest_hundredth_exact.
  - replace 0.72 with (IZR 72 / 100) by lra. apply nearest_hundredth_exact.
  - replace 0.79 with (IZR 79 / 100) by lra. apply nearest_hundredth_exact.
  - destruct Hin.
Qed.

Lemma getTauC_reproduces_table_witness : getTauC 0.75 20 = 0.56.
Proof.
  apply getTauC_reproduces_table.
  unfold tauTable, points, m20vals. cbn. do 3 right. left. reflexivity.
Defined.

(** ** Further properties of the design *)

Lemma ceil_spec (x : R) : x <= IZR (Num.ceil x) < x + 1.
Proof.
  unfold Num.ceil. rewrite opp_IZR.
  destruct (base_Int_part (- x)) as [H1 H2]. lra.
Qed.

Lemma floor_le (x : R) : IZR (Num.floor x) <= x.
Proof. unfold Num.floor. apply base_Int_part. Qed.

(** The bars and the stresses of the result, whatever the shear branch. *)
Lemma designBeam_bars (inputs : DesignInputs) (analysis : AnalysisResult) :
  let r := designBeam inputs analysis in
  let b := beamWidth inputs in
  let d := effectiveDepth analysis in
  let areaOneBar := (PI / 4) * mainBarDia inputs ^ 2 in
  numberOfBars r = Num.ceil (astRequired r / areaOneBar)
  /\ astProvided r = IZR (numberOfBars r) * areaOneBar
  /\ ptProvided r = (astProvided r / (b * d)) * 100
  /\ tauC r = getTauC (ptProvided r) (ConcreteGrade_value (fck inputs))
  /\ tauV r = Num.toFixed2 ((maxShear analysis * 1000) / (b * d)).
Proof.
  cbv zeta. unfold designBeam. cbv zeta.
  match goal with
  | |- context [let '(_, _) := ?c in _] => destruct c
  end.
  repeat split; reflexivity.
Qed.

(** The shear decision of the result, in terms of its own capacity. *)
Lemma designBeam_shear (inputs : DesignInputs) (analysis : AnalysisResult) :
  let r := designBeam inputs analysis in
  let b := beamWidth inputs in
  let d := effectiveDepth analysis in
  let fyv := SteelGrade_value (fy inputs) in
  let Vu := maxShear analysis in
  let tv := (Vu * 1000) / (b * d) in
  let asv := 2 * (PI / 4) * stirrupBarDia inputs ^ 2 in
  (shearReinforcementRequired r, stirrupSpacing r)
  = if Num.gtb tv (tcMax_of (ConcreteGrade_value (fck inputs))) then (false, Num.floor 0)
    else if Num.ltb tv (tauC r)
    then (false,
          Num.floor (Rmin (Rmin ((asv * 0.87 * fyv) / (0.4 * b)) (0.75 * d)) 300))
    else (true,
          Num.floor (Rmin (Rmin ((0.87 * fyv * asv * d) / ((Vu * 1000) - (tauC r * b * d)))
                                (0.75 * d)) 300)).
Proof.
  cbv zeta. unfold designBeam. cbv zeta.
  match goal with
  | |- context [let '(_, _) := ?c in _] =>
      remember c as pr eqn:E; destruct pr as [s sp]
  end.
  cbn [shearReinforcementRequired stirrupSpacing tauC].
  destruct (Num.gtb _ (tcMax_of _)).
  - now inversion E.
  - match type of E with
    | context [Num.ltb ?a ?c] => destruct (Num.ltb a c)
    end; now inversion E.
Qed.

(** X8. For a section of positive width and effective depth and a bar of
    positive diameter: the required steel is at least the minimum
    0.85 b d / fy, at least one bar is provided, the bars provided cover the
    required steel, and one bar fewer would not. *)
Theorem bars_cover_required_steel (inputs : DesignInputs) (analysis : AnalysisResult) :
  0 < beamWidth inputs -> 0 < effectiveDepth analysis -> 0 < mainBarDia inputs ->
  let r := designBeam inputs analysis in
  let areaOneBar := (PI / 4) * mainBarDia inputs ^ 2 in
  0.85 * beamWidth inputs * effectiveDepth analysis / SteelGrade_value (fy inputs)
    <= astRequired r
  /\ (1 <= numberOfBars r)%Z
  /\ astRequired r <= astProvided r
  /\ astProvided r - areaOneBar < astRequired r.
Proof.
  intros Hb Hd Hdia. cbv zeta.
  destruct (designBeam_bars inputs analysis) as (Hn & Hp & _).
  destruct (designBeam_flexure inputs analysis) as (_ & _ & Hast).
  cbv zeta in Hn, Hp, Hast.
  assert (Hfy : 0 < SteelGrade_value (fy inputs)) by (destruct (fy inputs); cbn; lra).
  assert (Hmin : 0 < 0.85 * beamWidth inputs * effectiveDepth analysis
                     / SteelGrade_value (fy inputs)).
  { apply Rdiv_lt_0_compat; [nra | exact Hfy]. }
  assert (Hreq : 0.85 * beamWidth inputs * effectiveDepth analysis
                   / SteelGrade_value (fy inputs)
                 <= astRequired (designBeam inputs analysis)).
  { rewrite Hast. apply Rmax_r. }
  assert (Ha : 0 < PI / 4 * mainBarDia inputs ^ 2).
  { pose proof PI_RGT_0. apply Rmult_lt_0_compat; [lra | now apply pow_lt]. }
  set (a := PI / 4 * mainBarDia inputs ^ 2) in *.
  set (A := astRequired (designBeam inputs analysis)) in *.
  pose proof (ceil_spec (A / a)) as [Hc1 Hc2]. rewrite <- Hn in Hc1, Hc2.
  set (n := numberOfBars (designBeam inputs analysis)) in *.
  assert (Hq : A / a * a = A) by (field; lra).
  assert (Hqpos : 0 < A / a) by (apply Rdiv_lt_0_compat; lra).
  split; [exact Hreq |]. split; [| split].
  - apply Z.lt_pred_le. apply lt_IZR. simpl. lra.
  - rewrite Hp. nra.
  - rewrite Hp. nra.
Qed.

Lemma bars_cover_required_steel_witness :
  let r := designBeam initialInputs
             (analyzeBeam initialInputs (calculateLoads initialInputs)) in
  (1 <= numberOfBars r)%Z /\ astRequired r <= astProvided r.
Proof.
  cbv zeta.
  destruct (bars_cover_required_steel initialInputs
              (analyzeBeam initialInputs (calculateLoads initialInputs)))
    as (_ & Hn & Hp & _); try (cbn; lra).
  split; assumption.
Defined.

(** The quadratic-formula area grows with the moment. *)
Lemma flexural_area_mono (c q M1 M2 : R) :
  0 <= c -> 0 < q -> M1 <= M2 ->
  c * (1 - sqrt (Rmax 0 (1 - (4.6 * (M1 * 1000000)) / q)))
    <= c * (1 - sqrt (Rmax 0 (1 - (4.6 * (M2 * 1000000)) / q))).
Proof.
  intros Hc Hq HM.
  assert (Hr : 1 - (4.6 * (M2 * 1000000)) / q <= 1 - (4.6 * (M1 * 1000000)) / q).
  { assert (H : (4.6 * (M1 * 1000000)) / q <= (4.6 * (M2 * 1000000)) / q).
    { unfold Rdiv. apply Rmult_le_compat_r; [left; now apply Rinv_0_lt_compat | lra]. }
    lra. }
  assert (Hs : sqrt (Rmax 0 (1 - (4.6 * (M2 * 1000000)) / q))
               <= sqrt (Rmax 0 (1 - (4.6 * (M1 * 1000000)) / q))).
  { apply sqrt_le_1_alt. split_minmax; lra. }
  nra.
Qed.

(** X9. For one section, a larger moment never asks for less steel; and
    past the limiting moment the required steel no longer grows: it stays
    at the value for the limiting moment while the section is flagged
    doubly reinforced. *)
Theorem required_steel_monotone_and_capped (inputs : DesignInputs) (M1 M2 V d : R) :
  0 < beamWidth inputs -> 0 < d -> M1 <= M2 ->
  let r1 := designBeam inputs {| maxMoment := M1; maxShear := V; effectiveDepth := d |} in
  let r2 := designBeam inputs {| maxMoment := M2; maxShear := V; effectiveDepth := d |} in
  astRequired r1 <= astRequired r2
  /\ (muLim r1 < M1 ->
      astRequired r1 = astRequired r2
      /\ isDoublyReinforced r1 = true /\ isDoublyReinforced r2 = true).
Proof.
  intros Hb Hd HM. cbv zeta.
  destruct (designBeam_flexure inputs
              {| maxMoment := M1; maxShear := V; effectiveDepth := d |})
    as (Hl1 & Hd1 & Ha1).
  destruct (designBeam_flexure inputs
              {| maxMoment := M2; maxShear := V; effectiveDepth := d |})
    as (_ & Hd2 & Ha2).
  cbv zeta in Hl1, Hd1, Ha1, Hd2, Ha2.
  cbn [maxMoment effectiveDepth] in Hl1, Hd1, Ha1, Hd2, Ha2.
  rewrite Hl1, Hd1, Hd2, Ha1, Ha2. clear Hl1 Hd1 Hd2 Ha1 Ha2.
  assert (Hfck : 0 < ConcreteGrade_value (fck inputs)) by (destruct (fck inputs); cbn; lra).
  assert (Hfy : 0 < SteelGrade_value (fy inputs)) by (destruct (fy inputs); cbn; lra).
  assert (Hk : 0 <= 1 - 4.6 * k_lim_of (fy inputs))
    by (rewrite k_lim_of_table; destruct (fy inputs); lra).
  set (fckv := ConcreteGrade_value (fck inputs)) in *.
  set (fyv := SteelGrade_value (fy inputs)) in *.
  set (b := beamWidth inputs) in *.
  set (k := k_lim_of (fy inputs)) in *.
  set (MuLim := k * fckv * b * d * d / 1000000).
  assert (Hq : 0 < fckv * b * d * d) by (repeat apply Rmult_lt_0_compat; lra).
  set (q := fckv * b * d * d) in *.
  assert (Hc : 0 <= 0.5 * fckv / fyv)
    by (left; apply Rdiv_lt_0_compat; lra).
  set (c := 0.5 * fckv / fyv) in *.
  assert (Hcap : 1 - 4.6 * (MuLim * 1000000) / q
                 = Rmax 0 (1 - 4.6 * (MuLim * 1000000) / q)).
  { assert (E : 1 - 4.6 * (MuLim * 1000000) / q = 1 - 4.6 * k)
      by (subst MuLim q; field; lra).
    rewrite E. symmetry. now apply Rmax_right. }
  assert (Hbd : 0 <= b * d) by nra.
  assert (Hmono : forall Ma Mb, Ma <= Mb ->
            c * (1 - sqrt (Rmax 0 (1 - 4.6 * (Ma * 1000000) / q))) * b * d
            <= c * (1 - sqrt (Rmax 0 (1 - 4.6 * (Mb * 1000000) / q))) * b * d).
  { intros Ma Mb Hab. pose proof (flexural_area_mono c q Ma Mb Hc Hq Hab) as H.
    rewrite !Rmult_assoc. rewrite <- !(Rmult_assoc c). nra. }
  split.
  - apply Rle_max_compat_r.
    destruct (Num.gtb M1 MuLim) eqn:E1; [apply gtb_true in E1 | apply gtb_false in E1];
    (destruct (Num.gtb M2 MuLim) eqn:E2; [apply gtb_true in E2 | apply gtb_false in E2]).
    + lra.
    + lra.
    + rewrite Hcap. now apply Hmono.
    + now apply Hmono.
  - intros Hlim.
    replace (Num.gtb M1 MuLim) with true by (symmetry; apply gtb_true; lra).
    replace (Num.gtb M2 MuLim) with true by (symmetry; apply gtb_true; lra).
    repeat split; reflexivity.
Qed.

Lemma required_steel_monotone_and_capped_witness :
  astRequired (designBeam initialInputs
                 {| maxMoment := 30; maxShear := 50; effectiveDepth := 425 |})
  <= astRequired (designBeam initialInputs
                    {| maxMoment := 60; maxShear := 50; effectiveDepth := 425 |}).
Proof.
  apply (required_steel_monotone_and_capped initialInputs 30 60 50 425);
    cbn; lra.
Defined.

(** X10. Whatever the shear branch, the stirrup spacing of a section of
    effective depth that is not negative never exceeds 300 mm nor three
    quarters of the effective depth. *)
Theorem stirrup_spacing_capped (inputs : DesignInputs) (analysis : AnalysisResult) :
  0 <= effectiveDepth analysis ->
  let r := designBeam inputs analysis in
  (stirrupSpacing r <= 300)%Z
  /\ IZR (stirrupSpacing r) <= 0.75 * effectiveDepth analysis.
Proof.
  intros Hd. cbv zeta.
  pose proof (designBeam_shear inputs analysis) as H. cbv zeta in H.
  assert (Hcap : forall x : R,
            (Num.floor (Rmin (Rmin x (0.75 * effectiveDepth analysis)) 300) <= 300)%Z
            /\ IZR (Num.floor (Rmin (Rmin x (0.75 * effectiveDepth analysis)) 300))
               <= 0.75 * effectiveDepth analysis).
  { intros x.
    pose proof (floor_le (Rmin (Rmin x (0.75 * effectiveDepth analysis)) 300)) as Hf.
    pose proof (Rmin_r (Rmin x (0.75 * effectiveDepth analysis)) 300) as H300.
    pose proof (Rmin_l (Rmin x (0.75 * effectiveDepth analysis)) 300) as Hl.
    pose proof (Rmin_r x (0.75 * effectiveDepth analysis)) as Hr.
    split; [apply le_IZR |]; lra. }
  destruct (Num.gtb _ _) in H.
  - injection H as _ ->. rewrite floor_0. split; [lia | simpl; lra].
  - destruct (Num.ltb _ _) in H; injection H as _ ->; apply Hcap.
Qed.

Lemma stirrup_spacing_capped_witness :
  (stirrupSpacing (designBeam initialInputs
     (analyzeBeam initialInputs (calculateLoads initialInputs))) <= 300)%Z.
Proof.
  apply (stirrup_spacing_capped initialInputs
           (analyzeBeam initialInputs (calculateLoads initialInputs))).
  cbn. lra.
Defined.

(** X11. Shear reinforcement is marked as required exactly when the
    unrounded nominal stress lies between the capacity of the concrete and
    the maximum permissible stress, both included. *)
Theorem shear_reinforcement_required_iff
    (inputs : DesignInputs) (analysis : AnalysisResult) :
  let r := designBeam inputs analysis in
  let tv := maxShear analysis * 1000 / (beamWidth inputs * effectiveDepth analysis) in
  shearReinforcementRequired r = true
  <-> tauC r <= tv <= tcMax_of (ConcreteGrade_value (fck inputs)).
Proof.
  cbv zeta.
  pose proof (designBeam_shear inputs analysis) as H. cbv zeta in H.
  destruct (Num.gtb _ _) eqn:E1 in H;
    [apply gtb_true in E1 | apply gtb_false in E1].
  - injection H as -> _. split; [discriminate | lra].
  - destruct (Num.ltb _ _) eqn:E2 in H;
      [apply ltb_true in E2 | apply ltb_false in E2]; injection H as -> _.
    + split; [discriminate | lra].
    + split; [intros _; lra | reflexivity].
Qed.

(** X12. Whatever the steel, a span/depth ratio of at most 14 passes the
    deflection check and one above 40 fails it. *)
Theorem deflection_window (spanM d astReq astProv b fy : R) :
  let r := checkDeflection spanM d astReq astProv b fy in
  (dr_actualLbyD r <= 14 -> dr_deflectionCheckPassed r = true)
  /\ (40 < dr_actualLbyD r -> dr_deflectionCheckPassed r = false).
Proof.
  cbv zeta.
  pose proof (checkDeflection_passed spanM d astReq astProv b fy) as Hiff.
  pose proof (checkDeflection_allowable spanM d astReq astProv b fy) as Hall.
  cbv zeta in Hiff, Hall. rewrite Hall, checkDeflection_kt in Hiff.
  pose proof (ktOfDenominator_range (ktDenominator d astReq astProv b fy)) as [Hlo Hhi].
  split; intros H.
  - apply Hiff. lra.
  - destruct (dr_deflectionCheckPassed _); [| reflexivity].
    pose proof (proj1 Hiff eq_refl). lra.
Qed.

Lemma deflection_window_witness :
  dr_deflectionCheckPassed (checkDeflection 3 425 977.5 977.5 230 500) = true
  /\ dr_deflectionCheckPassed (checkDeflection 9 200 977.5 977.5 230 500) = false.
Proof.
  split.
  - apply (proj1 (deflection_window 3 425 977.5 977.5 230 500)).
    unfold checkDeflection. cbn [dr_actualLbyD]. lra.
  - apply (proj2 (deflection_window 9 200 977.5 977.5 230 500)).
    unfold checkDeflection. cbn [dr_actualLbyD]. lra.
Defined.

(** ** The diagrams *)

Lemma momentDiagramData_nth (span M : R) (i : nat) :
  (i <= 20)%nat ->
  nth i (map mp_moment (momentDiagramData span M)) 0
    = 4 * M * (span * INR i / 20 / span) * (1 - span * INR i / 20 / span).
Proof.
  intros Hi. unfold momentDiagramData. cbv zeta. rewrite map_map. cbn [mp_moment].
  set (g := fun i0 : nat => _).
  rewrite (nth_indep _ 0 (g 0%nat)) by (rewrite length_map, length_seq; simpl; lia).
  rewrite map_nth, seq_nth by (simpl; lia).
  subst g. cbv beta. rewrite Nat.add_0_l.
  replace (INR 20) with 20 by (simpl; lra). reflexivity.
Qed.

(** X13. The diagrams plot the curves of the uniformly distributed load.
    Fed with the peaks of [analyzeBeam] for a positive span, the moment
    diagram has 21 samples, the one at x = L i / 20 being w x (L - x) / 2:
    zero at both supports and the peak moment at midspan; and the three
    shear values are w (L/2 - x) at x = 0, L/2 and L. *)
Theorem diagrams_plot_udl_curves (inputs : DesignInputs) (loads : LoadResult) :
  0 < beamClearSpan inputs ->
  let L := beamClearSpan inputs in
  let w := totalDesignUDL loads in
  let a := analyzeBeam inputs loads in
  let moments := map mp_moment (momentDiagramData L (maxMoment a)) in
  length moments = 21%nat
  /\ (forall i : nat, (i <= 20)%nat ->
        let x := L * INR i / 20 in
        nth i moments 0 = w * x * (L - x) / 2)
  /\ nth 0 moments 0 = 0
  /\ nth 10 moments 0 = maxMoment a
  /\ nth 20 moments 0 = 0
  /\ map sp_shear (shearDiagramData L (maxShear a))
     = [w * (L / 2 - 0); w * (L / 2 - L / 2); w * (L / 2 - L)].
Proof.
  intros HL. cbv zeta.
  assert (Hnth : forall i : nat, (i <= 20)%nat ->
            nth i (map mp_moment (momentDiagramData (beamClearSpan inputs)
                                    (maxMoment (analyzeBeam inputs loads)))) 0
            = totalDesignUDL loads * (beamClearSpan inputs * INR i / 20)
              * (beamClearSpan inputs - beamClearSpan inputs * INR i / 20) / 2).
  { intros i Hi. rewrite momentDiagramData_nth by exact Hi.
    unfold analyzeBeam. cbn [maxMoment]. field. lra. }
  split; [| split; [| split; [| split; [| split]]]].
  - unfold momentDiagramData. cbv zeta. now rewrite !length_map, length_seq.
  - exact Hnth.
  - rewrite Hnth by lia. simpl INR. field.
  - rewrite Hnth by lia. unfold analyzeBeam. cbn [maxMoment].
    replace (INR 10) with 10 by (simpl; lra). field.
  - rewrite Hnth by lia. replace (INR 20) with 20 by (simpl; lra). field.
  - unfold shearDiagramData, analyzeBeam. cbn [map sp_shear maxShear].
    f_equal; [unfold Rdiv; ring |].
    f_equal; [unfold Rdiv; ring |].
    f_equal. field.
Qed.

Lemma diagrams_plot_udl_curves_witness :
  nth 10 (map mp_moment
            (momentDiagramData 3
               (maxMoment (analyzeBeam initialInputs (calculateLoads initialInputs)))))
      0
  = maxMoment (analyzeBeam initialInputs (calculateLoads initialInputs)).
Proof.
  refine (proj1 (proj2 (proj2 (proj2
            (diagrams_plot_udl_curves initialInputs (calculateLoads initialInputs) _))))).
  cbn. lra.
Defined.

Lemma unit_parabola (t : R) : 0 <= t <= 1 -> 0 <= t * (1 - t) <= 1 / 4.
Proof.
  intros [H0 H1]. pose proof (pow2_ge_0 (t - 1 / 2)) as Hsq. split; nra.
Qed.

(** X14. For a peak moment that is not negative, no sample of the moment
    diagram is negative or above the peak, and the samples are symmetric
    about midspan. *)
Theorem moment_samples_bounded_symmetric (span M : R) (i : nat) :
  span <> 0 -> 0 <= M -> (i <= 20)%nat ->
  let moments := map mp_moment (momentDiagramData span M) in
  0 <= nth i moments 0 <= M
  /\ nth (20 - i) moments 0 = nth i moments 0.
Proof.
  intros Hs HM Hi. cbv zeta.
  rewrite !momentDiagramData_nth by lia.
  rewrite minus_INR by exact Hi.
  replace (INR 20) with 20 by (simpl; lra).
  assert (Ht : 0 <= INR i <= 20).
  { split; [apply pos_INR |]. replace 20 with (INR 20) by (simpl; lra). now apply le_INR. }
  replace (span * INR i / 20 / span) with (INR i / 20) by (field; assumption).
  replace (span * (20 - INR i) / 20 / span) with (1 - INR i / 20) by (field; assumption).
  set (t := INR i / 20). assert (Ht' : 0 <= t <= 1) by (subst t; lra).
  pose proof (unit_parabola t Ht') as Hp.
  set (u := t * (1 - t)) in *.
  replace (4 * M * t * (1 - t)) with (4 * M * u) by (subst u; ring).
  split; [split; nra | subst u; ring].
Qed.

Lemma moment_samples_bounded_symmetric_witness :
  0 <= nth 3 (map mp_moment (momentDiagramData 3 40)) 0 <= 40.
Proof.
  apply (moment_samples_bounded_symmetric 3 40 3); [lra | lra | lia].
Defined.

(** X15. On a positive span a load within the span is drawn on the
    beam, between the supports at 20 and 380, further right the further it
    is from the left support; loads at the ends are drawn on the
    supports. *)
Theorem getX_on_beam (span d1 d2 : R) :
  0 < span -> 0 <= d1 -> d1 <= d2 -> d2 <= span ->
  20 <= getX span d1 /\ getX span d1 <= getX span d2 /\ getX span d2 <= 380
  /\ getX span 0 = 20 /\ getX span span = 380.
Proof.
  intros Hs H1 H12 H2. unfold getX. cbv zeta.
  assert (Hq : forall d, d / span * span = d) by (intros; field; lra).
  pose proof (Hq d1) as E1. pose proof (Hq d2) as E2.
  set (t1 := d1 / span) in *. set (t2 := d2 / span) in *.
  assert (0 <= t1) by nra. assert (t1 <= t2) by nra. assert (t2 <= 1) by nra.
  split; [lra |]. split; [lra |]. split; [lra |]. split; field; lra.
Qed.

Lemma getX_on_beam_witness : 20 <= getX 3 1.5 /\ getX 3 1.5 <= 380.
Proof.
  destruct (getX_on_beam 3 1.5 1.5) as (H1 & _ & H2 & _);
    [lra | lra | lra | lra |].
  split; assumption.
Defined.

(** ** The sketch of the cross-section *)

(** X16. A section of positive width and depth is drawn to fit: its
    larger side takes 250 units, so the rectangle, centred at (150, 150),
    stays within the margins 25 and 275 of the 300 x 300 view box; and the
    proportions of the section are kept. *)
Theorem cross_section_fits (width depth : R) :
  0 < width -> 0 < depth ->
  let W := cs_scaledW width depth in
  let H := cs_scaledH width depth in
  let x := cs_x width depth in
  let y := cs_y width depth in
  Rmax W H = 250
  /\ 25 <= x /\ x + W <= 275 /\ 25 <= y /\ y + H <= 275
  /\ W * depth = H * width.
Proof.
  intros Hw Hd. cbv zeta. unfold cs_x, cs_y, cs_scaledW, cs_scaledH, cs_scale.
  assert (Hm : 0 < Rmax width depth) by (pose proof (Rmax_l width depth); lra).
  pose proof (Rmax_l width depth) as Hl. pose proof (Rmax_r width depth) as Hr.
  assert (Hq : Rmax width depth * (250 / Rmax width depth) = 250) by (field; lra).
  assert (Hs : 0 < 250 / Rmax width depth) by (apply Rdiv_lt_0_compat; lra).
  set (s := 250 / Rmax width depth) in *.
  assert (HW : width * s <= 250) by nra.
  assert (HH : depth * s <= 250) by nra.
  split; [| repeat split; try lra; ring].
  unfold Rmax in Hq |- *.
  destruct (Rle_dec width depth); destruct (Rle_dec (width * s) (depth * s)); nra.
Qed.

Lemma cross_section_fits_witness :
  Rmax (cs_scaledW 230 450) (cs_scaledH 230 450) = 250.
Proof.
  apply (cross_section_fits 230 450); lra.
Defined.

Lemma barsLoop_length (width depth sidePadding spacing bottomY barRadius : R)
    (fuel i : nat) :
  length (barsLoop width depth sidePadding spacing bottomY barRadius fuel i)
    = Nat.min fuel (5 - i).
Proof.
  revert i. induction fuel as [| fuel IH]; intros i; [reflexivity |].
  cbn [barsLoop]. destruct (4 <? i)%nat eqn:E.
  - apply Nat.ltb_lt in E. cbn [length]. lia.
  - apply Nat.ltb_ge in E. cbn [length]. rewrite IH. lia.
Qed.

Lemma barsLoop_In (width depth sidePadding spacing bottomY barRadius : R)
    (fuel i : nat) (c : Circle) :
  In c (barsLoop width depth sidePadding spacing bottomY barRadius fuel i) ->
  exists j : nat,
    (i <= j < i + fuel)%nat /\ (j <= 4)%nat
    /\ c_cx c = cs_x width depth + sidePadding + INR j * spacing
    /\ c_cy c = bottomY
    /\ c_r c = Rmax barRadius 2.
Proof.
  revert i. induction fuel as [| fuel IH]; intros i Hin; [destruct Hin |].
  cbn [barsLoop] in Hin. destruct (4 <? i)%nat eqn:E; [destruct Hin |].
  apply Nat.ltb_ge in E. destruct Hin as [<- | Hin].
  - exists i. cbn. repeat split; try lia; reflexivity.
  - destruct (IH _ Hin) as (j & Hj & Hj4 & Hc). exists j. repeat split; try lia; apply Hc.
Qed.

(** X17. The bars of the sketch: nothing is drawn for a bar count that
    is not positive; otherwise as many bars as counted, but five at most,
    are drawn, each with a radius of at least 2, and while the stirrup
    leaves room (the available width is not negative) every bar centre
    lies between the two side insets. *)
Theorem renderBars_count_and_place
    (width depth : R) (numBars : Z) (barDia stirrupDia cover : R) :
  let sidePadding := (cover + stirrupDia) * cs_scale width depth in
  let left := cs_x width depth + sidePadding in
  let right := cs_x width depth + cs_scaledW width depth - sidePadding in
  ((numBars <= 0)%Z ->
     renderBars width depth numBars barDia stirrupDia cover = None)
  /\ ((0 < numBars)%Z ->
      exists bars : list Circle,
        renderBars width depth numBars barDia stirrupDia cover = Some bars
        /\ Z.of_nat (length bars) = Z.min numBars 5
        /\ (forall c, In c bars -> 2 <= c_r c)
        /\ (left <= right -> forall c, In c bars -> left <= c_cx c <= right)).
Proof.
  cbv zeta. unfold renderBars. cbv zeta. split.
  - intros H. apply Z.leb_le in H. now rewrite H.
  - intros H. replace (numBars <=? 0)%Z with false by (symmetry; apply Z.leb_gt; lia).
    eexists. split; [reflexivity |]. split; [| split].
    + rewrite barsLoop_length. lia.
    + intros c Hc. apply barsLoop_In in Hc. destruct Hc as (j & _ & _ & _ & _ & ->).
      apply Rmax_r.
    + intros Hroom c Hc. apply barsLoop_In in Hc.
      destruct Hc as (j & Hj & _ & -> & _).
      set (sp := (cover + stirrupDia) * cs_scale width depth) in *.
      set (avail := cs_scaledW width depth - 2 * sp).
      assert (Ha : 0 <= avail) by (subst avail; lra).
      assert (Hjn : 0 <= INR j <= IZR numBars - 1).
      { split; [apply pos_INR |].
        assert (Hz : (Z.of_nat j <= numBars - 1)%Z) by lia.
        apply IZR_le in Hz. rewrite minus_IZR, <- INR_IZR_INZ in Hz. exact Hz. }
      destruct (1 <? numBars)%Z eqn:E.
      * apply Z.ltb_lt in E. assert (Hn : 0 < IZR numBars - 1).
        { apply IZR_lt in E. lra. }
        assert (Hq : (IZR numBars - 1) * (avail / (IZR numBars - 1)) = avail)
          by (field; lra).
        assert (Hs : 0 <= avail / (IZR numBars - 1))
          by (apply Rmult_le_pos; [lra | left; now apply Rinv_0_lt_compat]).
        set (s := avail / (IZR numBars - 1)) in *.
        assert (0 <= INR j * s <= avail) by (split; nra).
        subst avail. lra.
      * apply Z.ltb_ge in E. assert (j = 0%nat) by lia. subst j.
        simpl INR. subst avail. lra.
Qed.

Lemma renderBars_count_and_place_witness :
  renderBars 230 450 0 16 8 25 = None
  /\ exists bars, renderBars 230 450 7 16 8 25 = Some bars
                  /\ Z.of_nat (length bars) = 5%Z.
Proof.
  split.
  - apply (proj1 (renderBars_count_and_place 230 450 0 16 8 25)). lia.
  - destruct (proj2 (renderBars_count_and_place 230 450 7 16 8 25) ltac:(lia))
      as (bars & Hb & Hlen & _).
    exists bars. split; [exact Hb | exact Hlen].
Defined.

(** ** The point loads of the application shell *)

Lemma with_pointLoads_same (i : DesignInputs) : with_pointLoads (pointLoads i) i = i.
Proof. destruct i; reflexivity. Qed.

Lemma filter_all_kept {A : Type} (f : A -> bool) (l : list A) :
  (forall x, In x l -> f x = true) -> filter f l = l.
Proof.
  induction l as [| a l IH]; intros H; [reflexivity |].
  cbn. rewrite (H a (or_introl eq_refl)). f_equal. apply IH.
  intros x Hx. apply H. now right.
Qed.

(** X18. Removing a point load by the identifier it was just added
    under undoes the addition: if no earlier load carries that identifier
    the inputs are as before, and in any case they are as if the removal
    had been done without the addition. *)
Theorem remove_after_add (newId : string) (prev : DesignInputs) :
  removePointLoad newId (addPointLoad newId prev) = removePointLoad newId prev
  /\ ((forall pl, In pl (pointLoads prev) -> id pl <> newId) ->
      removePointLoad newId (addPointLoad newId prev) = prev).
Proof.
  assert (E : removePointLoad newId (addPointLoad newId prev)
              = removePointLoad newId prev).
  { unfold removePointLoad, addPointLoad, with_pointLoads.
    cbn [pointLoads slabThickness liveLoad floorFinish leftSlab rightSlab beamWidth
         beamDepth beamClearSpan effectiveCover wallHeight wallThickness
         masonryDensity fck fy mainBarDia stirrupBarDia].
    rewrite filter_app. cbn [filter id]. rewrite String.eqb_refl. cbn [negb].
    now rewrite app_nil_r. }
  split; [exact E |].
  intros Hfresh. rewrite E. unfold removePointLoad.
  rewrite filter_all_kept; [apply with_pointLoads_same |].
  intros pl Hpl. apply negb_true_iff. apply String.eqb_neq. now apply Hfresh.
Qed.

Lemma remove_after_add_witness :
  removePointLoad "p2" (addPointLoad "p2" inputsWithPointLoad) = inputsWithPointLoad.
Proof.
  apply (proj2 (remove_after_add "p2" inputsWithPointLoad)).
  intros pl [<- | []]. discriminate.
Defined.

(** X19. Removal by identifier takes out every point load that carries
    the identifier and no other: a load is left exactly when it was there
    and carries another identifier.  Removing twice is removing once, and
    nothing but the point loads changes. *)
Theorem removePointLoad_spec (i : string) (prev : DesignInputs) :
  let next := removePointLoad i prev in
  (forall pl, In pl (pointLoads next) <-> In pl (pointLoads prev) /\ id pl <> i)
  /\ (length (pointLoads next) <= length (pointLoads prev))%nat
  /\ removePointLoad i next = next
  /\ (forall pls, with_pointLoads pls next = with_pointLoads pls prev).
Proof.
  cbv zeta. unfold removePointLoad.
  split; [| split; [| split]].
  - intros pl. cbn [with_pointLoads pointLoads]. rewrite filter_In.
    rewrite negb_true_iff, String.eqb_neq. reflexivity.
  - cbn [with_pointLoads pointLoads]. apply filter_length_le.
  - unfold with_pointLoads.
    cbn [pointLoads slabThickness liveLoad floorFinish leftSlab rightSlab beamWidth
         beamDepth beamClearSpan effectiveCover wallHeight wallThickness
         masonryDensity fck fy mainBarDia stirrupBarDia].
    f_equal. apply filter_all_kept. intros x Hx. now apply filter_In in Hx.
  - intros pls. reflexivity.
Qed.

(** X20. An update by identifier keeps the number, the order and the
    identifiers of the point loads; it sets the chosen field of every load
    that carries the identifier and leaves the other field and the other
    loads alone; and for an identifier that no load carries it changes
    nothing. *)
Theorem updatePointLoad_spec (i : string) (field : PointLoadField) (v : R)
    (prev : DesignInputs) :
  let next := updatePointLoad i field v prev in
  map id (pointLoads next) = map id (pointLoads prev)
  /\ (forall (n : nat) (pl : PointLoad),
        nth_error (pointLoads prev) n = Some pl ->
        exists pl', nth_error (pointLoads next) n = Some pl'
          /\ (id pl <> i -> pl' = pl)
          /\ (id pl = i ->
              match field with
              | Field_value => value pl' = v /\ distance pl' = distance pl
              | Field_distance => distance pl' = v /\ value pl' = value pl
              end))
  /\ ((forall pl, In pl (pointLoads prev) -> id pl <> i) -> next = prev).
Proof.
  cbv zeta. unfold updatePointLoad. cbn [with_pointLoads pointLoads].
  set (f := fun pl : PointLoad => if String.eqb (id pl) i then _ else pl).
  assert (Hid : forall pl, id (f pl) = id pl).
  { intros pl. subst f. cbv beta. destruct (String.eqb (id pl) i); [| reflexivity].
    destruct field; reflexivity. }
  split; [| split].
  - rewrite map_map. apply map_ext. exact Hid.
  - intros n pl Hn. exists (f pl). split; [| split].
    + rewrite nth_error_map, Hn. reflexivity.
    + intros Hne. subst f. cbv beta.
      now replace (String.eqb (id pl) i) with false
        by (symmetry; now apply String.eqb_neq).
    + intros He. subst f. cbv beta.
      replace (String.eqb (id pl) i) with true by (symmetry; now apply String.eqb_eq).
      destruct field; split; reflexivity.
  - intros Hmiss.
    replace (map f (pointLoads prev)) with (pointLoads prev);
      [apply with_pointLoads_same |].
    rewrite <- (map_id (pointLoads prev)) at 1. apply map_ext_in.
    intros pl Hpl. subst f. cbv beta.
    now replace (String.eqb (id pl) i) with false
      by (symmetry; apply String.eqb_neq; now apply Hmiss).
Qed.

Lemma updatePointLoad_spec_witness :
  updatePointLoad "zz" Field_value 25 inputsWithPointLoad = inputsWithPointLoad.
Proof.
  apply (proj2 (proj2 (updatePointLoad_spec "zz" Field_value 25 inputsWithPointLoad))).
  intros pl [<- | []]. discriminate.
Defined.

(** ** The stages together *)

(** The share of a side in range grows with the area load. *)
Lemma slab_share_mono (c : SlabSideConfig) (w1 w2 : R) :
  sideInRange c -> w1 <= w2 ->
  calculateSlabLoadPerMeter c w1 <= calculateSlabLoadPerMeter c w2.
Proof.
  intros [Hlx Hlong] Hw. unfold calculateSlabLoadPerMeter.
  destruct (enabled c); cbn [negb]; [| lra].
  destruct (type c); [nra |].
  destruct (supportEdge c); [nra |].
  destruct (Hlong eq_refl eq_refl) as [Hpos Hle].
  pose proof (trapezoidal_factor_range _ _ Hpos Hle) as [Hlo Hhi].
  set (f := 1 - 1 / (3 * (ly c / lx c) ^ 2)) in *.
  assert (H1 : w1 * lx c <= w2 * lx c) by nra. nra.
Qed.

(** X21. With slab sides in range and a span that is not negative, a
    larger live load, all else equal, never lowers the total design UDL,
    the peak moment or the peak shear. *)
Theorem more_live_load_more_demand (inputs : DesignInputs) (q : R) :
  sideInRange (leftSlab inputs) -> sideInRange (rightSlab inputs) ->
  0 <= beamClearSpan inputs -> liveLoad inputs <= q ->
  let loads := calculateLoads inputs in
  let loads' := calculateLoads (with_liveLoad q inputs) in
  let a := analyzeBeam inputs loads in
  let a' := analyzeBeam (with_liveLoad q inputs) loads' in
  totalDesignUDL loads <= totalDesignUDL loads'
  /\ maxMoment a <= maxMoment a'
  /\ maxShear a <= maxShear a'
  /\ effectiveDepth a' = effectiveDepth a.
Proof.
  intros Hl Hr HL Hq. cbv zeta.
  assert (Hw : totalDesignUDL (calculateLoads inputs)
               <= totalDesignUDL (calculateLoads (with_liveLoad q inputs))).
  { unfold calculateLoads, CONCRETE_DENSITY, PARTIAL_SAFETY_FACTOR_LOAD.
    cbn [totalDesignUDL with_liveLoad slabThickness liveLoad floorFinish leftSlab
         rightSlab beamWidth beamDepth wallThickness wallHeight].
    assert (Hw : slabThickness inputs / 1000 * 25 + liveLoad inputs + floorFinish inputs
                 <= slabThickness inputs / 1000 * 25 + q + floorFinish inputs) by lra.
    pose proof (slab_share_mono _ _ _ Hl Hw). pose proof (slab_share_mono _ _ _ Hr Hw).
    lra. }
  unfold analyzeBeam.
  cbn [maxMoment maxShear effectiveDepth with_liveLoad beamClearSpan beamDepth
       effectiveCover].
  set (w := totalDesignUDL (calculateLoads inputs)) in *.
  set (w' := totalDesignUDL (calculateLoads (with_liveLoad q inputs))) in *.
  assert (HLL : 0 <= beamClearSpan inputs * beamClearSpan inputs) by nra.
  repeat split; try nra; reflexivity.
Qed.

Lemma more_live_load_more_demand_witness :
  maxMoment (analyzeBeam initialInputs (calculateLoads initialInputs))
  <= maxMoment (analyzeBeam (with_liveLoad 5 initialInputs)
                  (calculateLoads (with_liveLoad 5 initialInputs))).
Proof.
  refine (proj1 (proj2 (more_live_load_more_demand initialInputs 5 _ _ _ _)));
    try (cbn; lra); split; cbn; try lra; discriminate.
Defined.

(** X22. In a design with positive width, effective depth and bar
    diameter the percentage of steel provided is at least 85 / fy, which is
    above 0.15: neither the lower clamp of the shear capacity nor the floor
    0.1 of the deflection check is reached. *)
Theorem provided_percentage_floor (inputs : DesignInputs) (analysis : AnalysisResult) :
  0 < beamWidth inputs -> 0 < effectiveDepth analysis -> 0 < mainBarDia inputs ->
  let r := designBeam inputs analysis in
  85 / SteelGrade_value (fy inputs) <= ptProvided r
  /\ 0.15 < ptProvided r
  /\ clampPt (ptProvided r) = Rmin (ptProvided r) 3
  /\ Rmax (ptProvided r) 0.1 = ptProvided r.
Proof.
  intros Hb Hd Hdia. cbv zeta.
  destruct (designBeam_bars inputs analysis) as (Hn & Hp & Hpt & _).
  destruct (designBeam_flexure inputs analysis) as (_ & _ & Hast).
  cbv zeta in Hn, Hp, Hpt, Hast.
  assert (Hfy : 0 < SteelGrade_value (fy inputs) <= 550)
    by (destruct (fy inputs); cbn; lra).
  assert (Hreq : 0.85 * beamWidth inputs * effectiveDepth analysis
                   / SteelGrade_value (fy inputs)
                 <= astRequired (designBeam inputs analysis)).
  { rewrite Hast. apply Rmax_r. }
  assert (Ha : 0 < PI / 4 * mainBarDia inputs ^ 2).
  { pose proof PI_RGT_0. apply Rmult_lt_0_compat; [lra | now apply pow_lt]. }
  set (a := PI / 4 * mainBarDia inputs ^ 2) in *.
  set (A := astRequired (designBeam inputs analysis)) in *.
  pose proof (ceil_spec (A / a)) as [Hc1 _]. rewrite <- Hn in Hc1.
  assert (Hq : A / a * a = A) by (field; lra).
  assert (Hprov : A <= astProvided (designBeam inputs analysis)) by (rewrite Hp; nra).
  set (P := astProvided (designBeam inputs analysis)) in *.
  assert (Hbd : 0 < beamWidth inputs * effectiveDepth analysis) by nra.
  assert (Hlow : 85 / SteelGrade_value (fy inputs)
                 <= ptProvided (designBeam inputs analysis)).
  { rewrite Hpt.
    assert (E : 0.85 * beamWidth inputs * effectiveDepth analysis
                / SteelGrade_value (fy inputs)
                / (beamWidth inputs * effectiveDepth analysis) * 100
                = 85 / SteelGrade_value (fy inputs)).
    { replace 0.85 with (85 / 100) by lra. field. repeat split; lra. }
    rewrite <- E.
    apply Rmult_le_compat_r; [lra |].
    unfold Rdiv at 1 3. apply Rmult_le_compat_r;
      [left; now apply Rinv_0_lt_compat | lra]. }
  assert (H15 : 0.15 < 85 / SteelGrade_value (fy inputs)).
  { apply Rmult_lt_reg_r with (SteelGrade_value (fy inputs)); [lra |].
    replace (85 / SteelGrade_value (fy inputs) * SteelGrade_value (fy inputs))
      with 85 by (field; lra).
    lra. }
  split; [exact Hlow |]. split; [lra |]. split.
  - unfold clampPt. f_equal. apply Rmax_left. lra.
  - apply Rmax_left. lra.
Qed.

Lemma provided_percentage_floor_witness :
  0.15 < ptProvided (designBeam initialInputs
                       (analyzeBeam initialInputs (calculateLoads initialInputs))).
Proof.
  refine (proj1 (proj2 (provided_percentage_floor initialInputs
            (analyzeBeam initialInputs (calculateLoads initialInputs)) _ _ _)));
    cbn; lra.
Defined.


